(** * Crawler and batch indexer: a shallow embedding and its properties

    The development follows the two scripts of the repository:
    - [milestone1/infy.py]: [is_valid_url], [fetch_with_retry], [crawl];
    - [webscour/indexer/milestone3_indexer.py]: the inverted index and the
      IDF table.

    Python strings are modelled by [string], a character standing for the
    code point of the same number (U+0000 to U+00FF).  Python exceptions are
    modelled by the [Raise] constructor of [result].  Effects (HTTP requests,
    sleeps, files, diagnostics) are recorded as a list of [event]s, and the
    network is an explicit [World] threaded through the calls. *)

From Stdlib Require Import Reals Lra.
From Stdlib Require Import ZArith QArith Lia Ascii.
From stdpp Require Import gmap strings list.

Local Open Scope string_scope.
Local Open Scope list_scope.
Local Open Scope Z_scope.
Local Open Scope stdpp_scope.

(** ** Exceptions *)

Inductive exn : Type :=
  | ValueError
  | ZeroDivisionError
  | FileNotFoundError
  | IndexError.

Inductive result (A : Type) : Type :=
  | Ok (a : A)
  | Raise (e : exn).

Arguments Ok {A} a.
Arguments Raise {A} e.

#[global] Instance result_ret : MRet result := fun A a => Ok a.

#[global] Instance result_bind : MBind result := fun A B k m =>
  match m with
  | Ok a => k a
  | Raise e => Raise e
  end.

(** ** Python string operations *)

Module PyStr.

Definition code (c : ascii) : N := N_of_ascii c.

(** [str.isspace] on one character of the Latin-1 range. *)
Definition isspace (c : ascii) : bool :=
  let n := code c in
  ((9 <=? n) && (n <=? 13) || (28 <=? n) && (n <=? 32)
   || (n =? 133) || (n =? 160))%N.

(** [str.lower] on one character of the Latin-1 range. *)
Definition lower_char (c : ascii) : ascii :=
  let n := code c in
  if ((65 <=? n) && (n <=? 90)
      || (192 <=? n) && (n <=? 222) && negb (n =? 215))%N
  then ascii_of_N (n + 32) else c.

Fixpoint lower (s : string) : string :=
  match s with
  | EmptyString => EmptyString
  | String c r => String (lower_char c) (lower r)
  end.

Definition is_empty (s : string) : bool :=
  match s with EmptyString => true | _ => false end.

(** [s.lstrip(chars)], the set [chars] given as a predicate. *)
Fixpoint lstrip_by (p : ascii → bool) (s : string) : string :=
  match s with
  | EmptyString => EmptyString
  | String c r => if p c then lstrip_by p r else s
  end.

Fixpoint rstrip_by (p : ascii → bool) (s : string) : string :=
  match s with
  | EmptyString => EmptyString
  | String c r =>
      let r' := rstrip_by p r in
      if p c && is_empty r' then EmptyString else String c r'
  end.

(** [s.strip()] *)
Definition strip (s : string) : string :=
  rstrip_by isspace (lstrip_by isspace s).

(** [s.startswith(pre)] *)
Fixpoint startswith (s pre : string) : bool :=
  match pre, s with
  | EmptyString, _ => true
  | String _ _, EmptyString => false
  | String a pre', String b s' =>
      if decide (a = b) then startswith s' pre' else false
  end.

(** [s.endswith(suf)] *)
Definition endswith (s suf : string) : bool :=
  startswith (String.rev s) (String.rev suf).

(** [c in s] for a character [c]. *)
Fixpoint contains (c : ascii) (s : string) : bool :=
  match s with
  | EmptyString => false
  | String b r => if decide (c = b) then true else contains c r
  end.

(** [s.find(c)]: the index of the first [c], or [-1]. *)
Fixpoint find (c : ascii) (s : string) : Z :=
  match s with
  | EmptyString => -1
  | String b r =>
      if decide (c = b) then 0
      else let i := find c r in if (i <? 0)%Z then -1 else (i + 1)%Z
  end.

(** [s[:n]] and [s[n:]] for [n >= 0]. *)
Fixpoint take (n : nat) (s : string) : string :=
  match n, s with
  | S n', String c r => String c (take n' r)
  | _, _ => EmptyString
  end.

Fixpoint drop (n : nat) (s : string) : string :=
  match n, s with
  | S n', String _ r => drop n' r
  | _, _ => s
  end.

(** Deleting every character that satisfies [p], as the chained
    [replace] calls that delete the three unsafe characters do. *)
Fixpoint remove_chars (p : ascii → bool) (s : string) : string :=
  match s with
  | EmptyString => EmptyString
  | String c r =>
      if p c then remove_chars p r else String c (remove_chars p r)
  end.

Fixpoint forallb (p : ascii → bool) (s : string) : bool :=
  match s with
  | EmptyString => true
  | String c r => p c && forallb p r
  end.

(** The longest prefix of [s] without a character satisfying [p]. *)
Fixpoint take_until (p : ascii → bool) (s : string) : string :=
  match s with
  | EmptyString => EmptyString
  | String c r => if p c then EmptyString else String c (take_until p r)
  end.

(** [s.split()]: the maximal runs of non-whitespace characters.  [cur] is
    the run being read, in reverse. *)
Fixpoint split_go (cur : string) (s : string) : list string :=
  match s with
  | EmptyString =>
      if is_empty cur then [] else [String.rev cur]
  | String c r =>
      if isspace c
      then (if is_empty cur then split_go EmptyString r
            else String.rev cur :: split_go EmptyString r)
      else split_go (String c cur) r
  end.

Definition split (s : string) : list string := split_go EmptyString s.

End PyStr.

(** ** [urllib.parse.urlparse]

    The crawler reads two attributes of the parse result, [scheme] and
    [netloc]; both are fixed by [urlsplit].  The definition follows
    CPython's [urlsplit]: leading C0 control characters and spaces are
    stripped, tab, carriage return and newline are deleted, a scheme is the
    text before the first colon when it starts with an ASCII letter and
    consists of scheme characters, a network location follows a leading
    [//] up to the next [/], [?] or [#], and a network location with an
    unmatched square bracket raises [ValueError].  (Two further checks
    are not part of the model; each only raises in further cases.
    Recent releases check the text between a matched pair of brackets,
    and a network location with characters outside ASCII is checked
    after NFKC normalisation.  Neither check applies to ASCII text
    without a square bracket.) *)

Module UrlParse.

Record ParseResult : Type := mkParse { scheme : string; netloc : string }.

Definition is_c0_or_space (c : ascii) : bool := (PyStr.code c <=? 32)%N.

Definition is_unsafe (c : ascii) : bool :=
  let n := PyStr.code c in ((n =? 9) || (n =? 10) || (n =? 13))%N.

Definition is_ascii_alpha (c : ascii) : bool :=
  let n := PyStr.code c in
  ((65 <=? n) && (n <=? 90) || (97 <=? n) && (n <=? 122))%N.

Definition is_scheme_char (c : ascii) : bool :=
  let n := PyStr.code c in
  (is_ascii_alpha c || (48 <=? n) && (n <=? 57)
   || (n =? 43) || (n =? 45) || (n =? 46))%N.

Definition is_netloc_delim (c : ascii) : bool :=
  let n := PyStr.code c in ((n =? 47) || (n =? 63) || (n =? 35))%N.

Definition first_is (p : ascii → bool) (s : string) : bool :=
  match s with
  | EmptyString => false
  | String c _ => p c
  end.

(** The scheme and the remainder of the URL. *)
Definition split_scheme (url : string) : string * string :=
  let i := PyStr.find ":" url in
  if (0 <? i)%Z && first_is is_ascii_alpha url
     && PyStr.forallb is_scheme_char (PyStr.take (Z.to_nat i) url)
  then (PyStr.lower (PyStr.take (Z.to_nat i) url),
        PyStr.drop (Z.to_nat i + 1) url)
  else (EmptyString, url).

Definition urlsplit (url : string) : result ParseResult :=
  let url := PyStr.lstrip_by is_c0_or_space url in
  let url := PyStr.remove_chars is_unsafe url in
  let '(sch, rest) := split_scheme url in
  if PyStr.startswith rest "//" then
    let nl := PyStr.take_until is_netloc_delim (PyStr.drop 2 rest) in
    if xorb (PyStr.contains "[" nl) (PyStr.contains "]" nl)
    then Raise ValueError
    else Ok (mkParse sch nl)
  else Ok (mkParse sch EmptyString).

Definition urlparse (url : string) : result ParseResult := urlsplit url.

End UrlParse.

(** ** Task 3: [is_valid_url] *)

Definition bad_prefixes : list string :=
  ["mailto:"; "javascript:"; "tel:"; "#"].

Definition is_valid_url (url : string) : result bool :=
  if PyStr.is_empty url then Ok false
  else
    let url := PyStr.lower (PyStr.strip url) in
    if existsb (PyStr.startswith url) bad_prefixes then Ok false
    else
      parsed ← UrlParse.urlparse url;
      Ok (bool_decide (UrlParse.scheme parsed = "http"
                       ∨ UrlParse.scheme parsed = "https")).

(** ** The network and the observable effects *)

(** What the crawler reads of a [requests.Response]. *)
Record Response : Type := mkResponse { status_code : Z; text : string }.

(** [requests.get] either raises (timeout, connection error, ...) or
    returns a response. *)
Inductive get_outcome : Type :=
  | GetRaised
  | GetReturned (r : Response).

(** [Response.raise_for_status] raises for the 4xx and 5xx codes. *)
Definition raises_for_status (r : Response) : bool :=
  ((400 <=? status_code r) && (status_code r <? 600))%Z.

(** [bool(response)] is [response.ok]: true when [raise_for_status] does
    not raise. *)
Definition response_ok (r : Response) : bool := negb (raises_for_status r).

(** The effects a call leaves behind, in the order they happen.  The
    banner and the "Saved" line are not recorded, and the summary is
    recorded without the elapsed time. *)
Inductive event : Type :=
  | EvMakedirs                                  (* os.makedirs("pages") *)
  | EvGet (url : string) (timeout : Z)          (* requests.get *)
  | EvAttemptFailed (attempt : Z) (url : string)(* "[x] Attempt .. failed" *)
  | EvSleep (seconds : Q)                       (* time.sleep *)
  | EvPop (url : string)                        (* queue.pop(0) *)
  | EvSkipping (url : string)                   (* "[!] Skipping URL" *)
  | EvSave (page_id : Z) (content : string)     (* pages/page_<id>.html *)
  | EvAppend (url : string)                     (* queue.append *)
  | EvWriteVisited (urls : list string)         (* visited.txt *)
  | EvSummary (crawled unique : nat) (duplicates : Z).

Definition is_get (e : event) : bool :=
  match e with EvGet _ _ => true | _ => false end.

Definition pops (tr : list event) : list string :=
  omap (fun e => match e with EvPop u => Some u | _ => None end) tr.

Definition appends (tr : list event) : list string :=
  omap (fun e => match e with EvAppend u => Some u | _ => None end) tr.

Record crawl_state : Type := mkState {
  queue : list string;
  visited : gset string;
  duplicate_urls : Z;
  page_id : Z
}.

Module Crawler.
Section Crawler.

Context {World : Type}.

(** [requests.get(url, timeout=timeout)] against the current network. *)
Variable requests_get : string → Z → World → get_outcome * World.

(** The [href] values of [soup.find_all("a", href=True)] for a page text,
    in document order. *)
Variable find_all_href : string → list string.

(** [urllib.parse.urljoin]; it parses both arguments and so may raise. *)
Variable urljoin : string → string → result string.

(** *** Task 6: [fetch_with_retry] *)

(** The [try] block: the response when the request returns and
    [raise_for_status] does not raise. *)
Definition try_get (url : string) (timeout : Z) (w : World)
  : option Response * World :=
  match requests_get url timeout w with
  | (GetReturned r, w1) =>
      if raises_for_status r then (None, w1) else (Some r, w1)
  | (GetRaised, w1) => (None, w1)
  end.

(** The [for attempt in range(1, retries + 1)] loop over the remaining
    values of [attempt].  Leaving the loop returns [None]. *)
Fixpoint fetch_attempts (url : string) (retries timeout : Z)
    (attempts : list Z) (w : World) : option Response * World * list event :=
  match attempts with
  | [] => (None, w, [])
  | attempt :: rest =>
      match try_get url timeout w with
      | (Some r, w1) => (Some r, w1, [EvGet url timeout])
      | (None, w1) =>
          if (attempt =? retries)%Z
          then (None, w1, [EvGet url timeout; EvAttemptFailed attempt url])
          else
            let '(res, w2, tr) :=
              fetch_attempts url retries timeout rest w1 in
            (res, w2,
             EvGet url timeout :: EvAttemptFailed attempt url
               :: EvSleep 1 :: tr)
      end
  end.

Definition fetch_with_retry (url : string) (retries timeout : Z) (w : World)
  : option Response * World * list event :=
  fetch_attempts url retries timeout (seqZ 1 retries) w.

(** *** Tasks 1 to 5: [crawl] *)

(** The [for tag in soup.find_all("a", href=True)] loop over the remaining
    links: the URLs appended to the queue, and the exception that ended
    the loop early, if any. *)
Fixpoint link_loop (seed_domain current_url : string) (hrefs : list string)
  : list string * option exn :=
  match hrefs with
  | [] => ([], None)
  | raw_link :: rest =>
      match urljoin current_url raw_link with
      | Raise e => ([], Some e)
      | Ok full_url =>
          match is_valid_url full_url with
          | Raise e => ([], Some e)
          | Ok false => link_loop seed_domain current_url rest
          | Ok true =>
              match UrlParse.urlparse full_url with
              | Raise e => ([], Some e)
              | Ok parsed =>
                  if decide (UrlParse.netloc parsed ≠ seed_domain)
                  then link_loop seed_domain current_url rest
                  else
                    let '(added, err) :=
                      link_loop seed_domain current_url rest in
                    (full_url :: added, err)
              end
          end
      end
  end.

(** [while queue and len(visited) < MAX_PAGES] *)
Definition loop_cond (MAX_PAGES : Z) (st : crawl_state) : bool :=
  negb (bool_decide (queue st = []))
  && (Z.of_nat (size (visited st)) <? MAX_PAGES)%Z.

(** One execution of the loop body. *)
Definition loop_body (seed_domain : string) (st : crawl_state) (w : World)
  : result crawl_state * World * list event :=
  match queue st with
  | [] => (Raise IndexError, w, [])
  | current_url :: rest =>
      if decide (current_url ∈ visited st) then
        (Ok (mkState rest (visited st) (duplicate_urls st + 1) (page_id st)),
         w, [EvPop current_url])
      else
        let '(response, w1, tr) := fetch_with_retry current_url 3 8 w in
        match response with
        | Some r =>
            if response_ok r then
              let '(added, err) :=
                link_loop seed_domain current_url (find_all_href (text r)) in
              let tr' :=
                EvPop current_url :: tr
                  ++ EvSave (page_id st) (text r) :: (EvAppend <$> added) in
              match err with
              | Some e => (Raise e, w1, tr')
              | None =>
                  (Ok (mkState (rest ++ added)
                         ({[current_url]} ∪ visited st)
                         (duplicate_urls st) (page_id st + 1)),
                   w1, tr' ++ [EvSleep (1 # 2)])
              end
            else
              (Ok (mkState rest (visited st) (duplicate_urls st)
                     (page_id st)),
               w1, EvPop current_url :: tr ++ [EvSkipping current_url])
        | None =>
            (Ok (mkState rest (visited st) (duplicate_urls st)
                   (page_id st)),
             w1, EvPop current_url :: tr ++ [EvSkipping current_url])
        end
  end.

(** The [while] loop, run for at most [fuel] iterations; [None] when the
    fuel runs out first. *)
Fixpoint crawl_loop (fuel : nat) (seed_domain : string) (MAX_PAGES : Z)
    (st : crawl_state) (w : World)
  : option (result crawl_state * World * list event) :=
  match fuel with
  | O => None
  | S fuel' =>
      if loop_cond MAX_PAGES st then
        match loop_body seed_domain st w with
        | (Ok st1, w1, tr1) =>
            match crawl_loop fuel' seed_domain MAX_PAGES st1 w1 with
            | Some (r, w2, tr2) => Some (r, w2, tr1 ++ tr2)
            | None => None
            end
        | (Raise e, w1, tr1) => Some (Raise e, w1, tr1)
        end
      else Some (Ok st, w, [])
  end.

Definition init_state (seed_url : string) : crawl_state :=
  mkState [seed_url] ∅ 0 1.

(** [crawl(seed_url, MAX_PAGES)]: the state the loop ends in (or the
    exception that ended the call), the network, and the events. *)
Definition crawl (fuel : nat) (seed_url : string) (MAX_PAGES : Z)
    (w : World) : option (result crawl_state * World * list event) :=
  match UrlParse.urlparse seed_url with
  | Raise e => Some (Raise e, w, [EvMakedirs])
  | Ok parsed =>
      match
        crawl_loop fuel (UrlParse.netloc parsed) MAX_PAGES
          (init_state seed_url) w
      with
      | None => None
      | Some (Raise e, w1, tr) => Some (Raise e, w1, EvMakedirs :: tr)
      | Some (Ok st, w1, tr) =>
          Some (Ok st, w1,
                EvMakedirs :: tr
                  ++ [EvWriteVisited (elements (visited st));
                      EvSummary (size (visited st)) (size (visited st))
                        (duplicate_urls st)])
      end
  end.

(** The states the loop passes through: [run sd M st0 w0 tr st w] when
    some number of iterations leads from [st0] to [st], emitting [tr]. *)
Inductive run (seed_domain : string) (MAX_PAGES : Z)
    (st0 : crawl_state) (w0 : World)
  : list event → crawl_state → World → Prop :=
  | run_start : run seed_domain MAX_PAGES st0 w0 [] st0 w0
  | run_iter tr st w st1 w1 tr1 :
      run seed_domain MAX_PAGES st0 w0 tr st w →
      loop_cond MAX_PAGES st = true →
      loop_body seed_domain st w = (Ok st1, w1, tr1) →
      run seed_domain MAX_PAGES st0 w0 (tr ++ tr1) st1 w1.

End Crawler.
End Crawler.

Import Crawler.

(** ** The batch indexer *)

(** [math.log(doc_count / len(docs))]: true division raises
    [ZeroDivisionError] on a zero divisor and [math.log] raises
    [ValueError] outside the positive numbers.  Python's floats are
    idealised as real numbers. *)
Definition idf_score (doc_count : Z) (docs : list string) : result R :=
  if decide (length docs = 0%nat) then Raise ZeroDivisionError
  else
    let q := (IZR doc_count / INR (length docs))%R in
    if Rle_dec q 0 then Raise ValueError else Ok (ln q).

(** [idf[word] = math.log(doc_count / len(docs))] for one item. *)
Definition idf_step (doc_count : Z) (acc : result (gmap string R))
    (item : string * list string) : result (gmap string R) :=
  idf ← acc;
  score ← idf_score doc_count item.2;
  Ok (<[item.1 := score]> idf).

(** [for word, docs in inverted_index.items()] *)
Definition compute_idf (doc_count : Z)
    (inverted_index : gmap string (list string)) : result (gmap string R) :=
  foldl (idf_step doc_count) (Ok ∅) (map_to_list inverted_index).

Record index_state : Type := mkIndex {
  inverted_index : gmap string (list string);
  doc_count : Z
}.

(** What a completed run leaves behind: the two JSON files and the number
    of documents it reports. *)
Record index_output : Type := mkOutput {
  inverted_index_json : gmap string (list string);
  idf_json : gmap string R;
  documents_indexed : Z
}.

(** The posting list of a word, empty when the word has no entry. *)
Definition posting (idx : gmap string (list string)) (word : string)
  : list string :=
  default [] (idx !! word).

(** [inverted_index[word].append(file)] on a [defaultdict(list)]. *)
Definition add_word (file : string) (idx : gmap string (list string))
    (word : string) : gmap string (list string) :=
  <[word := posting idx word ++ [file]]> idx.

(** [for word in set(words)] *)
Definition add_document (file : string) (words : list string)
    (idx : gmap string (list string)) : gmap string (list string) :=
  foldl (add_word file) idx (elements (list_to_set words : gset string)).

Section Indexer.

(** [BeautifulSoup(content, "html.parser").get_text()] *)
Variable get_text : string → string.

Definition words_of (content : string) : list string :=
  PyStr.split (PyStr.lower (get_text content)).

(** The body of [for file in os.listdir(PAGES_DIR)] for one directory
    entry, given with the content of the file. *)
Definition read_page (st : index_state) (entry : string * string)
  : index_state :=
  if PyStr.endswith entry.1 ".html" then
    mkIndex (add_document entry.1 (words_of entry.2) (inverted_index st))
            (doc_count st + 1)
  else st.

Definition read_pages (listing : list (string * string)) : index_state :=
  foldl read_page (mkIndex ∅ 0) listing.

(** The script: [pages_dir] is [None] when the pages folder does not
    exist, and otherwise lists its entries in [os.listdir] order. *)
Definition indexer (pages_dir : option (list (string * string)))
  : result index_output :=
  match pages_dir with
  | None => Raise FileNotFoundError
  | Some listing =>
      let st := read_pages listing in
      idf ← compute_idf (doc_count st) (inverted_index st);
      Ok (mkOutput (inverted_index st) idf (doc_count st))
  end.

End Indexer.

(** * Vocabulary of the statements

    Predicates, measures and small concrete inputs used to state the
    properties below. *)

(** ** Indexer *)

(** No key of the index maps to an empty posting list. *)
Definition entries_nonempty (idx : gmap string (list string)) : Prop :=
  ∀ w docs, idx !! w = Some docs → docs ≠ [].

(** The documents of a listing: the entries whose name ends in [.html]. *)
Definition is_document (entry : string * string) : Prop :=
  PyStr.endswith entry.1 ".html" = true.

#[global] Instance is_document_dec entry : Decision (is_document entry) :=
  ltac:(unfold is_document; apply _).

Definition documents (listing : list (string * string))
  : list (string * string) :=
  filter is_document listing.

(** The names of the documents whose text contains [w], in listing
    order. *)
Definition docs_with (get_text : string → string) (w : string)
    (listing : list (string * string)) : list string :=
  (filter (fun entry => w ∈ words_of get_text entry.2)
     (documents listing)).*1.

(** The score the table holds for a posting list. *)
Definition idf_value (doc_count : Z) (docs : list string) : R :=
  ln (IZR doc_count / INR (length docs)).

(** The word [w] is one of the words of the document [entry]. *)
Definition occurs_in (get_text : string → string) (w : string)
    (entry : string * string) : Prop :=
  w ∈ words_of get_text entry.2.

#[global] Instance occurs_in_dec get_text w entry :
  Decision (occurs_in get_text w entry) :=
  ltac:(unfold occurs_in; apply _).

(** Pages without markup: the text of a page is its content. *)
Definition plain_text (content : string) : string := content.

(** A pages folder with two documents and one other file. *)
Definition two_pages : list (string * string) :=
  [("page_1.html", "Cat dog cat"); ("visited.txt", "dog");
   ("page_2.html", "the CAT")].

(** ** URL validator *)

(** Empty, or whitespace only. *)
Definition blank (url : string) : Prop :=
  PyStr.forallb PyStr.isspace url = true.

Definition has_bad_prefix (url : string) : bool :=
  existsb (PyStr.startswith (PyStr.lower (PyStr.strip url))) bad_prefixes.

(** ** Retrying fetch *)

(** The number of requests in a trace. *)
Definition count_gets (tr : list event) : nat :=
  length (List.filter is_get tr).

(** A failed attempt that is not the last one: the request, the
    diagnostic, the one-second pause. *)
Definition failed_round (url : string) (timeout attempt : Z) : list event :=
  [EvGet url timeout; EvAttemptFailed attempt url; EvSleep 1].

(** [k] such rounds, for the attempts [first], [first + 1], ... *)
Definition failed_rounds (url : string) (timeout first : Z) (k : nat)
  : list event :=
  concat (failed_round url timeout <$> seqZ first (Z.of_nat k)).

(** The network after [k] attempts in a row that all fail, starting in
    [w]; [None] when one of them succeeds. *)
Fixpoint after_failures {World : Type}
    (requests_get : string → Z → World → get_outcome * World)
    (url : string) (timeout : Z) (k : nat) (w : World) : option World :=
  match k with
  | O => Some w
  | S k' =>
      match try_get requests_get url timeout w with
      | (None, w1) => after_failures requests_get url timeout k' w1
      | (Some _, _) => None
      end
  end.

(** A network that answers the requests from a script, one outcome per
    request, and fails once the script is used up. *)
Definition scripted_get (url : string) (timeout : Z) (w : list get_outcome)
  : get_outcome * list get_outcome :=
  match w with
  | [] => (GetRaised, [])
  | outcome :: rest => (outcome, rest)
  end.

(** ** Crawl *)

(** A URL the link loop may enqueue: it passed the validator and its
    network location is the seed domain. *)
Definition eligible (seed_domain url : string) : Prop :=
  is_valid_url url = Ok true
  ∧ ∃ parsed, UrlParse.urlparse url = Ok parsed
              ∧ UrlParse.netloc parsed = seed_domain.



(** ** Small networks to run the crawler on *)

(** A network without state: every URL always gets the same outcome. *)
Definition static_get (answer : string → get_outcome)
    (url : string) (timeout : Z) (w : unit) : get_outcome * unit :=
  (answer url, w).

(** A page served with status 200. *)
Definition page (body : string) : get_outcome :=
  GetReturned (mkResponse 200 body).

(** Pages whose text is the list of their links, separated by spaces. *)
Definition links_of_text (body : string) : list string := PyStr.split body.

(** [urljoin] on absolute links: the link itself. *)
Definition join_absolute (base link : string) : result string := Ok link.

(** Five pages that link to one another. *)
Definition five_pages (url : string) : get_outcome :=
  if decide (url = "http://site.test/")
  then page "http://site.test/a http://site.test/b"
  else if decide (url = "http://site.test/a")
  then page "http://site.test/c http://site.test/"
  else if decide (url = "http://site.test/b")
  then page "http://site.test/d"
  else if decide (url = "http://site.test/c")
  then page "http://site.test/d http://site.test/a"
  else if decide (url = "http://site.test/d")
  then page "http://site.test/"
  else GetRaised.

(** A start page that links twice to a page that cannot be fetched. *)
Definition broken_link_site (url : string) : get_outcome :=
  if decide (url = "http://site.test/")
  then page "http://site.test/x http://site.test/x"
  else GetRaised.

(** ** Terms, normal forms and readings of a trace *)

(** A character that is not whitespace, and one that [str.lower] leaves
    alone. *)
Definition no_space (c : ascii) : bool := negb (PyStr.isspace c).

Definition is_lower_char (c : ascii) : bool :=
  bool_decide (PyStr.lower_char c = c).

(** The form of a URL the validator looks at: [url.strip().lower()]. *)
Definition normal_form (url : string) : string :=
  PyStr.lower (PyStr.strip url).

#[global] Instance eligible_dec seed_domain url :
  Decision (eligible seed_domain url).
Proof.
  unfold eligible.
  destruct (is_valid_url url) as [[|]|e];
    [|right; by intros [? _]|right; by intros [? _]].
  destruct (UrlParse.urlparse url) as [parsed|e].
  - destruct (decide (UrlParse.netloc parsed = seed_domain)) as [Heq|Hne].
    + left. split; [done|]. by exists parsed.
    + right. intros [_ (p & [= <-] & Hp)]. done.
  - right. by intros [_ (p & ? & _)].
Defined.

(** The numbers of the page files written, in order. *)
Definition saves (tr : list event) : list Z :=
  omap (fun e => match e with EvSave i _ => Some i | _ => None end) tr.

(** The URLs given up, in order. *)
Definition skips (tr : list event) : list string :=
  omap (fun e => match e with EvSkipping u => Some u | _ => None end) tr.

(** The URLs requested, in order, one entry per request. *)
Definition gets (tr : list event) : list string :=
  omap (fun e => match e with EvGet u _ => Some u | _ => None end) tr.

(** The timeouts of the requests. *)
Definition timeouts (tr : list event) : list Z :=
  omap (fun e => match e with EvGet _ t => Some t | _ => None end) tr.

(** The two reports that end a crawl: [visited.txt] and the summary. *)
Definition reports (tr : list event) : list event :=
  List.filter (fun e => match e with
                        | EvWriteVisited _ | EvSummary _ _ _ => true
                        | _ => false
                        end) tr.

(** The events one call of [fetch_with_retry] can leave. *)
Definition fetch_event (url : string) (timeout : Z) (e : event) : Prop :=
  match e with
  | EvGet u t => u = url ∧ t = timeout
  | EvAttemptFailed _ u => u = url
  | EvSleep s => s = 1%Q
  | _ => False
  end.

(** [urljoin] on absolute links, which parses its two arguments first:
    the link itself, or the exception of [urlparse]. *)
Definition join_parsed (base link : string) : result string :=
  _ ← UrlParse.urlparse base; _ ← UrlParse.urlparse link; Ok link.

(** [str.isascii] on one character. *)
Definition is_ascii (c : ascii) : bool := (PyStr.code c <? 128)%N.

(** A start page whose second link has an unmatched bracket. *)
Definition bracket_link_site (url : string) : get_outcome :=
  if decide (url = "http://site.test/")
  then page "http://site.test/a http://[ http://site.test/b"
  else page "http://site.test/".

(** A start page that links twice to a second page, once to a page that
    cannot be fetched and once to itself; the second page links back and
    to another domain. *)
Definition mixed_site (url : string) : get_outcome :=
  if decide (url = "http://site.test/")
  then page
    "http://site.test/a http://site.test/x http://site.test/a http://site.test/"
  else if decide (url = "http://site.test/a")
  then page "http://site.test/ http://other.test/"
  else GetRaised.

(** * Checks of the string and URL model *)

Example is_valid_url_https :
  is_valid_url "  HTTPS://Example.com/a " = Ok true.
Proof. reflexivity. Qed.

Example is_valid_url_mailto : is_valid_url " MailTo:x@y.com" = Ok false.
Proof. reflexivity. Qed.

Example is_valid_url_ftp : is_valid_url "ftp://example.com/" = Ok false.
Proof. reflexivity. Qed.

Example is_valid_url_blank : is_valid_url "   " = Ok false.
Proof. reflexivity. Qed.

Example is_valid_url_relative : is_valid_url "/a/b.html" = Ok false.
Proof. reflexivity. Qed.

Example split_words :
  PyStr.split "  the cat  sat " = ["the"; "cat"; "sat"].
Proof. reflexivity. Qed.

(** * Properties of the indexer *)

Lemma posting_add_word_eq file idx word :
  posting (add_word file idx word) word = posting idx word ++ [file].
Proof. unfold add_word, posting at 1. by rewrite lookup_insert_eq. Qed.

Lemma posting_add_word_ne file idx word w :
  w ≠ word → posting (add_word file idx word) w = posting idx w.
Proof.
  intros Hne. unfold add_word, posting at 1 3.
  by rewrite lookup_insert_ne.
Qed.

Lemma posting_foldl_add_word file (ws : list string) :
  NoDup ws → ∀ idx w,
  posting (foldl (add_word file) idx ws) w
  = posting idx w ++ (if decide (w ∈ ws) then [file] else []).
Proof.
  induction 1 as [|x ws Hx Hnd IH]; intros idx w; cbn [foldl].
  - destruct (decide (w ∈ [])) as [Hin|_]; [by apply elem_of_nil in Hin|].
    by rewrite app_nil_r.
  - rewrite IH. destruct (decide (w = x)) as [->|Hne].
    + rewrite posting_add_word_eq.
      destruct (decide (x ∈ ws)) as [|_]; [done|].
      destruct (decide (x ∈ x :: ws)) as [_|Hn]; [by rewrite app_nil_r|].
      exfalso. apply Hn. by left.
    + rewrite posting_add_word_ne by done. f_equal.
      destruct (decide (w ∈ ws)) as [Hin|Hin];
        destruct (decide (w ∈ x :: ws)) as [Hin'|Hin']; try done.
      * exfalso. apply Hin'. by right.
      * apply elem_of_cons in Hin' as [?|?]; done.
Qed.

(** One document extends the posting list of a word by one entry when the
    word occurs in it, however often, and leaves it alone otherwise. *)
Lemma posting_add_document file words idx w :
  posting (add_document file words idx) w
  = posting idx w ++ (if decide (w ∈ words) then [file] else []).
Proof.
  unfold add_document. rewrite posting_foldl_add_word by apply NoDup_elements.
  f_equal. destruct (decide (w ∈ words)) as [Hin|Hin].
  - rewrite decide_True; [done|]. apply elem_of_elements.
    by apply elem_of_list_to_set.
  - rewrite decide_False; [done|]. rewrite elem_of_elements.
    by rewrite elem_of_list_to_set.
Qed.

Lemma entries_nonempty_empty : entries_nonempty ∅.
Proof. intros w docs. by rewrite lookup_empty. Qed.

Lemma entries_nonempty_add_word file idx word :
  entries_nonempty idx → entries_nonempty (add_word file idx word).
Proof.
  intros Hne w docs. unfold add_word.
  destruct (decide (word = w)) as [->|Hw].
  - rewrite lookup_insert_eq. intros [= <-].
    by destruct (posting idx w).
  - rewrite lookup_insert_ne by done. apply Hne.
Qed.

Lemma entries_nonempty_add_document file words idx :
  entries_nonempty idx → entries_nonempty (add_document file words idx).
Proof.
  unfold add_document.
  generalize (elements (list_to_set words : gset string)) as ws.
  intros ws. revert idx.
  induction ws as [|x ws IH]; intros idx Hne; simpl; [done|].
  apply IH. by apply entries_nonempty_add_word.
Qed.

Lemma lookup_posting idx w docs :
  idx !! w = Some docs → posting idx w = docs.
Proof. intros H. unfold posting. by rewrite H. Qed.

Section IndexerFacts.

Variable get_text : string → string.

Lemma foldl_read_page listing : ∀ st,
  let st' := foldl (read_page get_text) st listing in
  (entries_nonempty (inverted_index st) →
   entries_nonempty (inverted_index st'))
  ∧ doc_count st' = doc_count st + Z.of_nat (length (documents listing))
  ∧ ∀ w, posting (inverted_index st') w
         = posting (inverted_index st) w ++ docs_with get_text w listing.
Proof.
  induction listing as [|entry listing IH]; intros st; simpl.
  - split; [done|]. split; [lia|]. intros w.
    unfold docs_with, documents. simpl. by rewrite app_nil_r.
  - destruct (IH (read_page get_text st entry)) as (IH1 & IH2 & IH3).
    unfold docs_with, documents in *. rewrite filter_cons.
    unfold read_page in *.
    destruct (decide (is_document entry)) as [Hd|Hd].
    + unfold is_document in Hd. rewrite Hd in *. simpl in *.
      split; [|split].
      * intros Hne. apply IH1. by apply entries_nonempty_add_document.
      * rewrite IH2. lia.
      * intros w. rewrite IH3, posting_add_document, filter_cons.
        rewrite <- app_assoc. f_equal.
        destruct (decide (w ∈ words_of get_text entry.2)); done.
    + unfold is_document in Hd. apply not_true_is_false in Hd.
      rewrite Hd in *. done.
Qed.

Lemma read_pages_nonempty listing :
  entries_nonempty (inverted_index (read_pages get_text listing)).
Proof.
  unfold read_pages.
  destruct (foldl_read_page listing (mkIndex ∅ 0)) as (H & _ & _).
  apply H, entries_nonempty_empty.
Qed.

Lemma read_pages_doc_count listing :
  doc_count (read_pages get_text listing)
  = Z.of_nat (length (documents listing)).
Proof.
  unfold read_pages.
  destruct (foldl_read_page listing (mkIndex ∅ 0)) as (_ & H & _).
  rewrite H. simpl. lia.
Qed.

Lemma read_pages_posting listing w :
  posting (inverted_index (read_pages get_text listing)) w
  = docs_with get_text w listing.
Proof.
  unfold read_pages.
  destruct (foldl_read_page listing (mkIndex ∅ 0)) as (_ & _ & H).
  rewrite H. unfold posting. simpl. by rewrite lookup_empty.
Qed.

Lemma docs_with_length w listing :
  (length (docs_with get_text w listing) ≤ length (documents listing))%nat.
Proof. unfold docs_with. rewrite length_fmap. apply length_filter. Qed.

(** Every posting list of the built index is non-empty and no longer
    than the number of documents. *)
Lemma read_pages_posting_bounds listing w docs :
  inverted_index (read_pages get_text listing) !! w = Some docs →
  (1 ≤ length docs)%nat
  ∧ Z.of_nat (length docs) ≤ doc_count (read_pages get_text listing).
Proof.
  intros Hw. split.
  - apply read_pages_nonempty in Hw. destruct docs; [done | simpl; lia].
  - rewrite read_pages_doc_count.
    rewrite <- (lookup_posting _ _ _ Hw), read_pages_posting.
    apply inj_le, docs_with_length.
Qed.

End IndexerFacts.

Lemma idf_score_ok doc_count docs :
  (1 ≤ length docs)%nat → Z.of_nat (length docs) ≤ doc_count →
  idf_score doc_count docs = Ok (idf_value doc_count docs).
Proof.
  intros Hlen Hcount. unfold idf_score, idf_value.
  destruct (decide (length docs = 0%nat)) as [|_]; [lia|].
  destruct (Rle_dec _ _) as [Hle|_]; [|done].
  exfalso. apply (Rlt_not_le _ _ (Rdiv_lt_0_compat _ _
    (IZR_lt 0 doc_count ltac:(lia)) (lt_0_INR (length docs) ltac:(lia)))).
  exact Hle.
Qed.

Lemma idf_value_nonneg doc_count docs :
  (1 ≤ length docs)%nat → Z.of_nat (length docs) ≤ doc_count →
  (0 <= idf_value doc_count docs)%R.
Proof.
  intros Hlen Hcount. unfold idf_value.
  assert (0 < INR (length docs))%R as Hpos by (apply lt_0_INR; lia).
  assert (INR (length docs) <= IZR doc_count)%R as Hle.
  { rewrite INR_IZR_INZ. by apply IZR_le. }
  assert (1 <= IZR doc_count / INR (length docs))%R as H1.
  { apply (Rmult_le_reg_r (INR (length docs))); [done|].
    unfold Rdiv. rewrite Rmult_assoc, Rinv_l, Rmult_1_l, Rmult_1_r; [done|].
    by apply Rgt_not_eq. }
  destruct H1 as [Hlt| <-].
  - rewrite <- ln_1. left. apply ln_increasing; [apply Rlt_0_1 | done].
  - rewrite ln_1. apply Rle_refl.
Qed.

Lemma foldl_idf_step doc_count (items : list (string * list string)) :
  NoDup items.*1 →
  Forall (fun item => idf_score doc_count item.2
                      = Ok (idf_value doc_count item.2)) items →
  ∀ acc : gmap string R, ∃ idf : gmap string R,
    foldl (idf_step doc_count) (Ok acc) items = Ok idf
    ∧ ∀ w, idf !! w
           = match (list_to_map items : gmap string (list string)) !! w with
             | Some docs => Some (idf_value doc_count docs)
             | None => acc !! w
             end.
Proof.
  induction items as [|[k d] items IH]; intros Hnd Hall acc.
  - exists acc. split; [done|]. intros w. simpl. by rewrite lookup_empty.
  - apply NoDup_cons in Hnd as [Hk Hnd].
    apply Forall_cons in Hall as [Hd Hall]. simpl in Hd.
    cbn [foldl].
    assert (idf_step doc_count (Ok acc) (k, d)
            = Ok (<[k := idf_value doc_count d]> acc)) as ->.
    { unfold idf_step. simpl. by rewrite Hd. }
    destruct (IH Hnd Hall (<[k := idf_value doc_count d]> acc))
      as (idf & Hfold & Hlook).
    exists idf. split; [done|]. intros w. rewrite Hlook.
    cbn [list_to_map foldr uncurry]. simpl.
    destruct (decide (k = w)) as [<-|Hne].
    + rewrite lookup_insert_eq.
      rewrite (not_elem_of_list_to_map_1 _ _ Hk).
      by rewrite lookup_insert_eq.
    + by rewrite !lookup_insert_ne by done.
Qed.

(** When every posting list is non-empty and no longer than [doc_count],
    the IDF loop raises nothing and fills in exactly the keys of the
    index. *)
Lemma compute_idf_ok doc_count (idx : gmap string (list string)) :
  (∀ w docs, idx !! w = Some docs →
     (1 ≤ length docs)%nat ∧ Z.of_nat (length docs) ≤ doc_count) →
  ∃ idf : gmap string R,
    compute_idf doc_count idx = Ok idf
    ∧ ∀ w, idf !! w = idf_value doc_count <$> idx !! w.
Proof.
  intros Hb. unfold compute_idf.
  destruct (foldl_idf_step doc_count (map_to_list idx)) with (acc := ∅ : gmap string R)
    as (idf & Hfold & Hlook).
  - apply NoDup_fst_map_to_list.
  - apply Forall_forall. intros [w docs] Hin%elem_of_map_to_list.
    simpl. destruct (Hb w docs Hin). by apply idf_score_ok.
  - exists idf. split; [done|]. intros w. rewrite Hlook.
    rewrite list_to_map_to_list. destruct (idx !! w); [done|].
    by rewrite lookup_empty.
Qed.

Section IndexerResults.

Variable get_text : string → string.

(** With the pages folder present the script completes, whatever the
    listing, and the two files hold the index and its IDF table. *)
Lemma indexer_completes listing :
  ∃ idf : gmap string R,
    indexer get_text (Some listing)
    = Ok (mkOutput (inverted_index (read_pages get_text listing)) idf
            (doc_count (read_pages get_text listing)))
    ∧ ∀ w, idf !! w
           = idf_value (doc_count (read_pages get_text listing))
               <$> inverted_index (read_pages get_text listing) !! w.
Proof.
  destruct (compute_idf_ok (doc_count (read_pages get_text listing))
              (inverted_index (read_pages get_text listing)))
    as (idf & Hidf & Hlook).
  { intros w docs. apply read_pages_posting_bounds. }
  exists idf. split; [|done]. unfold indexer. by rewrite Hidf.
Qed.

End IndexerResults.

Lemma filter_Forall_id {A} (P : A → Prop) `{!∀ x, Decision (P x)} (l : list A) :
  Forall P l → filter P l = l.
Proof.
  induction 1 as [|x l Hx _ IH]; [done|].
  rewrite filter_cons, decide_True by done. by rewrite IH.
Qed.

Lemma posting_lookup idx w docs :
  posting idx w = docs → docs ≠ [] → idx !! w = Some docs.
Proof.
  unfold posting. destruct (idx !! w) as [l|]; simpl; intros <-; done.
Qed.

Lemma posting_nil_lookup idx w :
  entries_nonempty idx → posting idx w = [] → idx !! w = None.
Proof.
  unfold posting. intros Hne. destruct (idx !! w) as [l|] eqn:Hw; [|done].
  simpl. intros ->. by apply Hne in Hw.
Qed.

Section IndexerClaims.

Variable get_text : string → string.

(** C1: for every term of the built inverted index the IDF table holds
    [ln (totalDocuments / documentFrequency)], where [totalDocuments]
    is the number of documents processed and [documentFrequency] the
    length of the term's posting list; over two documents a term of both
    scores [0] and a term of exactly one scores [ln 2]. *)
Theorem idf_table_scores (listing : list (string * string)) :
  let built := read_pages get_text listing in
  ∃ idf : gmap string R,
    indexer get_text (Some listing)
    = Ok (mkOutput (inverted_index built) idf (doc_count built))
    ∧ doc_count built = Z.of_nat (length (documents listing))
    ∧ (∀ w docs, inverted_index built !! w = Some docs →
         idf !! w
         = Some (ln (IZR (doc_count built) / INR (length docs))))
    ∧ (length (documents listing) = 2%nat → ∀ w,
         (Forall (occurs_in get_text w) (documents listing) →
            idf !! w = Some 0%R)
         ∧ (length (filter (occurs_in get_text w) (documents listing)) = 1%nat →
            idf !! w = Some (ln 2))).
Proof.
  intros built. subst built.
  destruct (indexer_completes get_text listing) as (idf & Hrun & Hlook).
  exists idf. split; [done|]. split; [apply read_pages_doc_count|].
  split.
  - intros w docs Hw. by rewrite Hlook, Hw.
  - intros Htwo w.
    assert (∀ n, length (docs_with get_text w listing) = n → n ≠ 0%nat →
              idf !! w = Some (ln (2 / INR n))) as Hscore.
    { intros n Hn Hn0. rewrite Hlook.
      rewrite (posting_lookup _ w (docs_with get_text w listing)).
      - simpl. unfold idf_value.
        by rewrite read_pages_doc_count, Htwo, Hn.
      - apply read_pages_posting.
      - intros Hnil. rewrite Hnil in Hn. simpl in Hn. lia. }
    split.
    + intros Hall. rewrite (Hscore 2%nat); [| |done].
      * f_equal. rewrite <- ln_1. f_equal. simpl. lra.
      * unfold docs_with. rewrite length_fmap.
        fold (occurs_in get_text w). by rewrite filter_Forall_id.
    + intros Hone. rewrite (Hscore 1%nat); [| |done].
      * do 2 f_equal. simpl. lra.
      * unfold docs_with. by rewrite length_fmap.
Qed.

(** C2, as the code has it: with the pages folder present and no
    document in it, the run completes without raising; it computes no
    score at all and writes an empty index and an empty IDF table,
    reporting zero documents. *)
Theorem indexer_empty_corpus (listing : list (string * string)) :
  documents listing = [] →
  indexer get_text (Some listing) = Ok (mkOutput ∅ ∅ 0).
Proof.
  intros Hnone.
  destruct (indexer_completes get_text listing) as (idf & Hrun & Hlook).
  rewrite Hrun.
  assert (inverted_index (read_pages get_text listing) = ∅) as Hidx.
  { apply map_eq. intros w. rewrite lookup_empty.
    apply posting_nil_lookup; [apply read_pages_nonempty|].
    rewrite read_pages_posting. unfold docs_with. by rewrite Hnone. }
  assert (idf = ∅) as ->.
  { apply map_eq. intros w. by rewrite Hlook, Hidx, !lookup_empty. }
  by rewrite Hidx, read_pages_doc_count, Hnone.
Qed.

(** C9: a document extends the posting list of a term by at most one
    entry, so a posting list is a sub-list of the document names, its
    length is at most the number of documents, and no IDF score is
    negative. *)
Theorem posting_once_per_document (listing : list (string * string)) :
  (∀ file words idx w,
     posting (add_document file words idx) w
     = posting idx w ++ (if decide (w ∈ words) then [file] else []))
  ∧ ∃ out : index_output,
      indexer get_text (Some listing) = Ok out
      ∧ inverted_index_json out
        = inverted_index (read_pages get_text listing)
      ∧ (∀ w docs, inverted_index_json out !! w = Some docs →
           docs `sublist_of` (documents listing).*1
           ∧ Z.of_nat (length docs) ≤ documents_indexed out)
      ∧ (∀ w score, idf_json out !! w = Some score → (0 <= score)%R).
Proof.
  split; [intros; apply posting_add_document|].
  destruct (indexer_completes get_text listing) as (idf & Hrun & Hlook).
  eexists. split; [exact Hrun|]. simpl. split; [done|]. split.
  - intros w docs Hw. split.
    + rewrite <- (lookup_posting _ _ _ Hw), read_pages_posting.
      unfold docs_with. apply fmap_sublist, sublist_filter.
    + by apply read_pages_posting_bounds in Hw as [_ ?].
  - intros w score. rewrite Hlook.
    destruct (inverted_index (read_pages get_text listing) !! w)
      as [docs|] eqn:Hw; [|done].
    simpl. intros [= <-].
    apply read_pages_posting_bounds in Hw as [? ?].
    by apply idf_value_nonneg.
Qed.

End IndexerClaims.

Lemma idf_table_scores_witness :
  ∃ idf : gmap string R,
    indexer plain_text (Some two_pages)
    = Ok (mkOutput (inverted_index (read_pages plain_text two_pages)) idf 2)
    ∧ inverted_index (read_pages plain_text two_pages) !! "dog"
      = Some ["page_1.html"]
    ∧ idf !! "dog" = Some (ln (IZR 2 / INR 1))
    ∧ idf !! "cat" = Some 0%R
    ∧ idf !! "dog" = Some (ln 2).
Proof.
  destruct (idf_table_scores plain_text two_pages)
    as (idf & Hrun & Hcount & Hall & Htwo).
  exists idf. split; [exact Hrun|].
  assert (inverted_index (read_pages plain_text two_pages) !! "dog"
          = Some ["page_1.html"]) as Hdog by (vm_compute; reflexivity).
  split; [exact Hdog|]. split; [exact (Hall "dog" _ Hdog)|].
  assert (length (documents two_pages) = 2%nat) as Hlen by reflexivity.
  destruct (Htwo Hlen "cat") as [Hboth _].
  destruct (Htwo Hlen "dog") as [_ Hone].
  split.
  - apply Hboth.
    refine (bool_decide_unpack
              (Forall (occurs_in plain_text "cat") (documents two_pages)) _).
    vm_compute. exact I.
  - apply Hone. vm_compute. reflexivity.
Defined.

Lemma indexer_empty_corpus_witness :
  documents [("visited.txt", "a b")] = []
  ∧ indexer plain_text (Some [("visited.txt", "a b")]) = Ok (mkOutput ∅ ∅ 0).
Proof.
  split; [reflexivity|]. apply indexer_empty_corpus. reflexivity.
Defined.

(** C2, as stated, fails: an existing pages folder without any document
    makes the run complete and write its two (empty) files; nothing is
    raised. *)
Lemma indexer_empty_corpus_not_error :
  documents [] = []
  ∧ indexer plain_text (Some []) = Ok (mkOutput ∅ ∅ 0)
  ∧ ¬ ∃ e, indexer plain_text (Some []) = Raise e.
Proof.
  assert (indexer plain_text (Some []) = Ok (mkOutput ∅ ∅ 0)) as Hrun.
  { unfold indexer, read_pages, compute_idf. simpl.
    by rewrite map_to_list_empty. }
  split; [reflexivity|]. split; [exact Hrun|].
  intros [e He]. rewrite Hrun in He. discriminate He.
Qed.

Lemma posting_once_per_document_witness :
  ∃ out : index_output,
    indexer plain_text (Some two_pages) = Ok out
    ∧ inverted_index_json out !! "cat" = Some ["page_1.html"; "page_2.html"]
    ∧ ["page_1.html"; "page_2.html"] `sublist_of` (documents two_pages).*1
    ∧ 2 ≤ documents_indexed out
    ∧ ∃ score, idf_json out !! "cat" = Some score ∧ (0 <= score)%R.
Proof.
  destruct (posting_once_per_document plain_text two_pages)
    as (_ & out & Hrun & Hidx & Hpost & Hidf).
  exists out. split; [exact Hrun|].
  assert (inverted_index_json out !! "cat"
          = Some ["page_1.html"; "page_2.html"]) as Hcat.
  { rewrite Hidx. vm_compute. reflexivity. }
  split; [exact Hcat|].
  destruct (Hpost "cat" _ Hcat) as [Hsub Hlen].
  split; [exact Hsub|]. split; [exact Hlen|].
  destruct (indexer_completes plain_text two_pages) as (idf & Hrun' & Hlook).
  rewrite Hrun' in Hrun. injection Hrun as <-. simpl in *.
  exists (idf_value (doc_count (read_pages plain_text two_pages))
            ["page_1.html"; "page_2.html"]).
  assert (idf !! "cat"
          = Some (idf_value (doc_count (read_pages plain_text two_pages))
                    ["page_1.html"; "page_2.html"])) as Hscore.
  { rewrite Hlook, Hcat. reflexivity. }
  split; [exact Hscore|]. exact (Hidf "cat" _ Hscore).
Defined.

(** * Properties of the URL validator *)

Lemma lstrip_by_all p s :
  PyStr.forallb p s = true → PyStr.lstrip_by p s = EmptyString.
Proof.
  induction s as [|c s IH]; simpl; [done|].
  intros [Hc Hs]%andb_prop. rewrite Hc. by apply IH.
Qed.

Lemma strip_blank url : blank url → PyStr.strip url = EmptyString.
Proof. intros Hb. unfold PyStr.strip. by rewrite lstrip_by_all. Qed.

(** Blank input and input with one of the four prefixes are rejected. *)
Lemma is_valid_url_rejects url :
  blank url ∨ has_bad_prefix url = true → is_valid_url url = Ok false.
Proof.
  unfold is_valid_url, has_bad_prefix.
  destruct (PyStr.is_empty url); [done|]. intros [Hb|Hp].
  - by rewrite (strip_blank _ Hb).
  - by rewrite Hp.
Qed.

(** Any other input is accepted exactly when its scheme, as [urlparse]
    reads it off the trimmed and lowercased text, is [http] or [https];
    an exception of [urlparse] passes through. *)
Lemma is_valid_url_scheme url :
  ¬ blank url → has_bad_prefix url = false →
  is_valid_url url
  = (parsed ← UrlParse.urlparse (PyStr.lower (PyStr.strip url));
     Ok (bool_decide (UrlParse.scheme parsed = "http"
                      ∨ UrlParse.scheme parsed = "https"))).
Proof.
  unfold is_valid_url, has_bad_prefix. intros Hb Hp.
  destruct url as [|c url]; [by destruct Hb|]. simpl PyStr.is_empty.
  cbv iota. by rewrite Hp.
Qed.

(** C4: the validator is meant to answer every string with a boolean,
    but an unmatched bracket in the network location makes [urlparse]
    raise [ValueError], and [is_valid_url] lets it through. *)
Theorem is_valid_url_unmatched_bracket :
  PyStr.is_empty "http://[" = false
  ∧ has_bad_prefix "http://[" = false
  ∧ is_valid_url "http://[" = Raise ValueError.
Proof. repeat split. Qed.

(** * Properties of the retrying fetch *)

Lemma failed_rounds_S url timeout first k :
  failed_rounds url timeout first (S k)
  = failed_round url timeout first
    ++ failed_rounds url timeout (first + 1) k.
Proof.
  unfold failed_rounds. rewrite seqZ_cons by lia.
  rewrite fmap_cons. cbn [concat].
  replace (Z.succ first) with (first + 1) by lia.
  by replace (Z.pred (Z.of_nat (S k))) with (Z.of_nat k) by lia.
Qed.

Lemma count_gets_failed_rounds url timeout k : ∀ first,
  count_gets (failed_rounds url timeout first k) = k.
Proof.
  induction k as [|k IH]; intros first; [done|].
  rewrite failed_rounds_S. unfold count_gets in *. simpl. by rewrite IH.
Qed.

Section FetchFacts.

Context {World : Type}.
Variable requests_get : string → Z → World → get_outcome * World.

Lemma fetch_attempts_success url retries timeout k :
  ∀ first n w w1 r w2,
  first + n - 1 = retries → Z.of_nat k < n →
  after_failures requests_get url timeout k w = Some w1 →
  try_get requests_get url timeout w1 = (Some r, w2) →
  fetch_attempts requests_get url retries timeout (seqZ first n) w
  = (Some r, w2, failed_rounds url timeout first k ++ [EvGet url timeout]).
Proof.
  induction k as [|k IH]; intros first n w w1 r w2 Hlast Hk Hfail Hget.
  - injection Hfail as <-. rewrite seqZ_cons by lia. simpl.
    by rewrite Hget.
  - rewrite seqZ_cons by lia. cbn [fetch_attempts].
    cbn [after_failures] in Hfail.
    destruct (try_get requests_get url timeout w) as [[r'|] w'] eqn:Htry;
      [done|].
    destruct (Z.eqb_spec first retries) as [|_]; [lia|].
    rewrite (IH (Z.succ first) (Z.pred n) w' w1 r w2) by (done || lia).
    rewrite failed_rounds_S. by replace (first + 1) with (Z.succ first) by lia.
Qed.

Lemma fetch_attempts_exhausted url retries timeout k :
  ∀ first w w1,
  first + Z.of_nat (S k) - 1 = retries →
  after_failures requests_get url timeout (S k) w = Some w1 →
  fetch_attempts requests_get url retries timeout
    (seqZ first (Z.of_nat (S k))) w
  = (None, w1,
     failed_rounds url timeout first k
       ++ [EvGet url timeout; EvAttemptFailed retries url]).
Proof.
  induction k as [|k IH]; intros first w w1 Hlast Hfail;
    rewrite seqZ_cons by lia; cbn [fetch_attempts];
    cbn [after_failures] in Hfail;
    destruct (try_get requests_get url timeout w) as [[r'|] w'] eqn:Htry;
    try done.
  - injection Hfail as <-.
    destruct (Z.eqb_spec first retries) as [->|]; [done | lia].
  - destruct (Z.eqb_spec first retries) as [|_]; [lia|].
    replace (Z.pred (Z.of_nat (S (S k)))) with (Z.of_nat (S k)) by lia.
    rewrite (IH (Z.succ first) w' w1) by (done || lia).
    rewrite (failed_rounds_S _ _ first).
    by replace (first + 1) with (Z.succ first) by lia.
Qed.

(** Either some attempt among the first [n] succeeds after [k < n]
    failures, or all [n] fail. *)
Lemma attempts_cases url timeout n : ∀ w,
  (∃ k w1 r w2, (k < n)%nat
     ∧ after_failures requests_get url timeout k w = Some w1
     ∧ try_get requests_get url timeout w1 = (Some r, w2))
  ∨ (∃ w1, after_failures requests_get url timeout n w = Some w1).
Proof.
  induction n as [|n IH]; intros w; [right; by exists w|].
  destruct (try_get requests_get url timeout w) as [[r|] w'] eqn:Htry.
  - left. exists 0%nat, w, r, w'. split; [lia|]. done.
  - destruct (IH w') as [(k & w1 & r & w2 & Hk & Hf & Hg)|[w1 Hf]].
    + left. exists (S k), w1, r, w2. split; [lia|]. simpl.
      by rewrite Htry.
    + right. exists w1. simpl. by rewrite Htry.
Qed.

(** The three ways a call can go. *)
Lemma fetch_with_retry_cases url retries timeout w :
  (retries ≤ 0
   ∧ fetch_with_retry requests_get url retries timeout w = (None, w, []))
  ∨ (∃ k w1 r w2, Z.of_nat k < retries
       ∧ after_failures requests_get url timeout k w = Some w1
       ∧ try_get requests_get url timeout w1 = (Some r, w2)
       ∧ fetch_with_retry requests_get url retries timeout w
         = (Some r, w2,
            failed_rounds url timeout 1 k ++ [EvGet url timeout]))
  ∨ (∃ w1, 0 < retries
       ∧ after_failures requests_get url timeout (Z.to_nat retries) w = Some w1
       ∧ fetch_with_retry requests_get url retries timeout w
         = (None, w1,
            failed_rounds url timeout 1 (Z.to_nat retries - 1)
              ++ [EvGet url timeout; EvAttemptFailed retries url])).
Proof.
  unfold fetch_with_retry.
  destruct (Z_le_gt_dec retries 0) as [Hle|Hgt].
  { left. split; [done|]. by rewrite seqZ_nil. }
  right.
  destruct (attempts_cases url timeout (Z.to_nat retries) w)
    as [(k & w1 & r & w2 & Hk & Hf & Hg)|[w1 Hf]].
  - left. exists k, w1, r, w2. split; [lia|]. split; [done|].
    split; [done|].
    apply (fetch_attempts_success _ _ _ k 1 retries w w1); (done || lia).
  - right. exists w1. split; [lia|]. split; [done|].
    destruct (Z.to_nat retries) as [|k] eqn:Hn; [lia|].
    replace retries with (Z.of_nat (S k)) at 2 by lia.
    rewrite (fetch_attempts_exhausted url retries timeout k 1 w w1)
      by (done || lia).
    by replace (S k - 1)%nat with k by lia.
Qed.

End FetchFacts.

Lemma count_gets_app tr1 tr2 :
  count_gets (tr1 ++ tr2) = (count_gets tr1 + count_gets tr2)%nat.
Proof. unfold count_gets. by rewrite List.filter_app, length_app. Qed.

(** C5: the fetcher makes at most [retries] attempts, one after the
    other; the first attempt that succeeds ends the call with that
    response; every failed attempt but the last is followed by a pause of
    one second, the last by none; and when all attempts fail the call
    returns [None] instead of raising. *)
Theorem fetch_with_retry_attempts {World : Type}
    (requests_get : string → Z → World → get_outcome * World)
    (url : string) (retries timeout : Z) (w : World) :
  (count_gets (fetch_with_retry requests_get url retries timeout w).2
   ≤ Z.to_nat retries)%nat
  ∧ (∀ k w1 r w2,
       Z.of_nat k < retries →
       after_failures requests_get url timeout k w = Some w1 →
       try_get requests_get url timeout w1 = (Some r, w2) →
       fetch_with_retry requests_get url retries timeout w
       = (Some r, w2,
          failed_rounds url timeout 1 k ++ [EvGet url timeout]))
  ∧ (∀ w1,
       0 < retries →
       after_failures requests_get url timeout (Z.to_nat retries) w
       = Some w1 →
       fetch_with_retry requests_get url retries timeout w
       = (None, w1,
          failed_rounds url timeout 1 (Z.to_nat retries - 1)
            ++ [EvGet url timeout; EvAttemptFailed retries url]))
  ∧ (∀ seconds,
       last (fetch_with_retry requests_get url retries timeout w).2
       ≠ Some (EvSleep seconds)).
Proof.
  split; [|split; [|split]].
  - destruct (fetch_with_retry_cases requests_get url retries timeout w)
      as [[_ ->]|[(k & w1 & r & w2 & Hk & _ & _ & ->)|(w1 & Hr & _ & ->)]];
      simpl.
    + unfold count_gets. simpl. lia.
    + rewrite count_gets_app, count_gets_failed_rounds.
      unfold count_gets. simpl. lia.
    + rewrite count_gets_app, count_gets_failed_rounds.
      unfold count_gets. simpl. lia.
  - intros k w1 r w2 Hk Hfail Hget. unfold fetch_with_retry.
    apply (fetch_attempts_success _ _ _ _ k 1 retries w w1); (done || lia).
  - intros w1 Hr Hfail. unfold fetch_with_retry.
    destruct (Z.to_nat retries) as [|k] eqn:Hn; [lia|].
    replace retries with (Z.of_nat (S k)) at 2 by lia.
    rewrite (fetch_attempts_exhausted _ url retries timeout k 1 w w1)
      by (done || lia).
    by replace (S k - 1)%nat with k by lia.
  - intros seconds.
    destruct (fetch_with_retry_cases requests_get url retries timeout w)
      as [[_ ->]|[(k & w1 & r & w2 & _ & _ & _ & ->)|(w1 & _ & _ & ->)]];
      cbn [snd]; [done| |].
    + by rewrite last_snoc.
    + replace (failed_rounds url timeout 1 (Z.to_nat retries - 1)
               ++ [EvGet url timeout; EvAttemptFailed retries url])
        with ((failed_rounds url timeout 1 (Z.to_nat retries - 1)
               ++ [EvGet url timeout]) ++ [EvAttemptFailed retries url])
        by (by rewrite <- app_assoc).
      by rewrite last_snoc.
Qed.

Lemma fetch_with_retry_attempts_witness :
  fetch_with_retry scripted_get "http://a.test/" 3 8
    [GetRaised; GetReturned (mkResponse 503 "busy"); GetReturned (mkResponse 200 "ok")]
  = (Some (mkResponse 200 "ok"), [],
     [EvGet "http://a.test/" 8; EvAttemptFailed 1 "http://a.test/"; EvSleep 1;
      EvGet "http://a.test/" 8; EvAttemptFailed 2 "http://a.test/"; EvSleep 1;
      EvGet "http://a.test/" 8])
  ∧ fetch_with_retry scripted_get "http://a.test/" 3 8
      [GetRaised; GetRaised; GetReturned (mkResponse 404 "missing")]
    = (None, [],
       [EvGet "http://a.test/" 8; EvAttemptFailed 1 "http://a.test/"; EvSleep 1;
        EvGet "http://a.test/" 8; EvAttemptFailed 2 "http://a.test/"; EvSleep 1;
        EvGet "http://a.test/" 8; EvAttemptFailed 3 "http://a.test/"]).
Proof.
  split.
  - destruct (fetch_with_retry_attempts scripted_get "http://a.test/" 3 8
      [GetRaised; GetReturned (mkResponse 503 "busy");
       GetReturned (mkResponse 200 "ok")]) as (_ & Hsucc & _ & _).
    apply (Hsucc 2%nat [GetReturned (mkResponse 200 "ok")]);
      [lia | reflexivity | reflexivity].
  - destruct (fetch_with_retry_attempts scripted_get "http://a.test/" 3 8
      [GetRaised; GetRaised; GetReturned (mkResponse 404 "missing")])
      as (_ & _ & Hfail & _).
    apply (Hfail []); [lia | reflexivity].
Defined.

(** * Properties of the crawl loop *)

Lemma pops_app tr1 tr2 : pops (tr1 ++ tr2) = pops tr1 ++ pops tr2.
Proof. apply omap_app. Qed.

Lemma appends_app tr1 tr2 : appends (tr1 ++ tr2) = appends tr1 ++ appends tr2.
Proof. apply omap_app. Qed.

Lemma appends_fmap_EvAppend urls : appends (EvAppend <$> urls) = urls.
Proof. induction urls as [|u urls IH]; simpl; [done|]. by f_equal. Qed.

Lemma pops_fmap_EvAppend urls : pops (EvAppend <$> urls) = [].
Proof. induction urls as [|u urls IH]; simpl; done. Qed.

Section CrawlFacts.

Context {World : Type}.
Variable requests_get : string → Z → World → get_outcome * World.
Variable find_all_href : string → list string.
Variable urljoin : string → string → result string.

Abbreviation fetch_with_retry := (fetch_with_retry requests_get).
Abbreviation link_loop := (link_loop urljoin).
Abbreviation loop_body := (loop_body requests_get find_all_href urljoin).
Abbreviation crawl_loop := (crawl_loop requests_get find_all_href urljoin).
Abbreviation crawl := (crawl requests_get find_all_href urljoin).
Abbreviation run := (run requests_get find_all_href urljoin).

Lemma fetch_attempts_queue_events url retries timeout attempts : ∀ w,
  let tr := (fetch_attempts requests_get url retries timeout attempts w).2 in
  pops tr = [] ∧ appends tr = [].
Proof.
  induction attempts as [|a attempts IH]; intros w; simpl; [done|].
  destruct (try_get requests_get url timeout w) as [[r|] w1]; [done|].
  destruct (a =? retries); [done|].
  specialize (IH w1).
  destruct (fetch_attempts requests_get url retries timeout attempts w1)
    as [[res w2] tr].
  done.
Qed.

Lemma fetch_attempts_ok url retries timeout attempts : ∀ w r,
  (fetch_attempts requests_get url retries timeout attempts w).1.1 = Some r →
  response_ok r = true.
Proof.
  induction attempts as [|a attempts IH]; intros w r; simpl; [done|].
  unfold try_get.
  destruct (requests_get url timeout w) as [[|r'] w1]; simpl.
  - destruct (a =? retries); [done|]. specialize (IH w1 r).
    destruct (fetch_attempts requests_get url retries timeout attempts w1)
      as [[res w2] tr]. done.
  - destruct (raises_for_status r') eqn:Hr; simpl.
    + destruct (a =? retries); [done|]. specialize (IH w1 r).
      destruct (fetch_attempts requests_get url retries timeout attempts w1)
        as [[res w2] tr]. done.
    + intros [= <-]. unfold response_ok. by rewrite Hr.
Qed.

(** A call with the default three attempts starts with a request. *)
Lemma fetch_with_retry_first_get url w :
  ∃ tr, (fetch_with_retry url 3 8 w).2 = EvGet url 8 :: tr.
Proof.
  unfold Crawler.fetch_with_retry.
  rewrite (seqZ_cons 1 3) by lia. cbn [fetch_attempts].
  destruct (try_get requests_get url 8 w) as [[r|] w1]; [by eexists|].
  cbn [Z.eqb Pos.eqb].
  destruct (fetch_attempts requests_get url 3 8 _ w1) as [[res w2] tr].
  by eexists.
Qed.

Lemma link_loop_eligible seed_domain current_url hrefs :
  Forall (eligible seed_domain) (link_loop seed_domain current_url hrefs).1.
Proof.
  induction hrefs as [|raw_link hrefs IH]; simpl; [done|].
  destruct (urljoin current_url raw_link) as [full_url|e]; [|done].
  destruct (is_valid_url full_url) as [[|]|e] eqn:Hvalid; [|done|done].
  destruct (UrlParse.urlparse full_url) as [parsed|e] eqn:Hparse; [|done].
  destruct (decide (UrlParse.netloc parsed ≠ seed_domain)) as [|Heq];
    [done|].
  destruct (link_loop seed_domain current_url hrefs) as [added err].
  simpl in *. constructor; [|done].
  split; [done|]. exists parsed. split; [done|].
  by destruct (decide (UrlParse.netloc parsed = seed_domain)).
Qed.

(** What one execution of the loop body does to the queue, the visited
    set and the counters. *)
Lemma loop_body_inv seed_domain st w u rest r w1 tr :
  queue st = u :: rest →
  loop_body seed_domain st w = (r, w1, tr) →
  pops tr = [u]
  ∧ Forall (eligible seed_domain) (appends tr)
  ∧ match r with
    | Ok st1 =>
        queue st1 = rest ++ appends tr
        ∧ ((visited st1 = visited st ∧ queue st1 = rest)
           ∨ ((u ∉ visited st) ∧ visited st1 = {[u]} ∪ visited st))
    | Raise _ => True
    end.
Proof.
  intros Hq. unfold Crawler.loop_body. rewrite Hq.
  destruct (decide (u ∈ visited st)) as [Hin|Hnin].
  { intros [= <- <- <-]. simpl. rewrite app_nil_r.
    repeat split; [done|]. by left. }
  pose proof (fetch_attempts_queue_events u 3 8 (seqZ 1 3) w) as Hq_ev.
  fold (fetch_with_retry u 3 8 w) in Hq_ev.
  destruct (fetch_with_retry u 3 8 w) as [[response w2] ftr].
  simpl in Hq_ev. destruct Hq_ev as [Hpops Happs].
  assert (∀ r' w' tr',
    (Ok (mkState rest (visited st) (duplicate_urls st) (page_id st)), w2,
     EvPop u :: ftr ++ [EvSkipping u]) = (r', w', tr') →
    pops tr' = [u] ∧ Forall (eligible seed_domain) (appends tr')
    ∧ match r' with
      | Ok st1 =>
          queue st1 = rest ++ appends tr'
          ∧ ((visited st1 = visited st ∧ queue st1 = rest)
             ∨ ((u ∉ visited st) ∧ visited st1 = {[u]} ∪ visited st))
      | Raise _ => True
      end) as Hskip.
  { intros r' w' tr' [= <- <- <-].
    change (EvPop u :: ftr ++ [EvSkipping u])
      with ([EvPop u] ++ ftr ++ [EvSkipping u]).
    rewrite !pops_app, !appends_app, Hpops, Happs. simpl.
    rewrite app_nil_r. repeat split; [done|]. by left. }
  destruct response as [resp|]; [|apply Hskip].
  destruct (response_ok resp); [|apply Hskip].
  pose proof (link_loop_eligible seed_domain u (find_all_href (text resp)))
    as Helig.
  destruct (link_loop seed_domain u (find_all_href (text resp)))
    as [added err].
  simpl in Helig.
  assert (pops (EvPop u :: ftr ++ EvSave (page_id st) (text resp)
                  :: (EvAppend <$> added)) = [u]
          ∧ appends (EvPop u :: ftr ++ EvSave (page_id st) (text resp)
                       :: (EvAppend <$> added)) = added) as [Hp Ha].
  { change (EvPop u :: ftr ++ EvSave (page_id st) (text resp)
              :: (EvAppend <$> added))
      with ([EvPop u] ++ ftr ++ [EvSave (page_id st) (text resp)]
              ++ (EvAppend <$> added)).
    rewrite !pops_app, !appends_app, Hpops, Happs.
    by rewrite pops_fmap_EvAppend, appends_fmap_EvAppend. }
  destruct err as [e|]; intros [= <- <- <-].
  - rewrite Hp, Ha. auto.
  - change (EvPop u :: (ftr ++ EvSave (page_id st) (text resp)
                         :: (EvAppend <$> added)) ++ [EvSleep (1 # 2)])
      with ((EvPop u :: ftr ++ EvSave (page_id st) (text resp)
               :: (EvAppend <$> added)) ++ [EvSleep (1 # 2)]).
    rewrite pops_app, appends_app, Hp, Ha. simpl. rewrite !app_nil_r.
    repeat split; [done|]. by right.
Qed.

End CrawlFacts.

Section CrawlRuns.

Context {World : Type}.
Variable requests_get : string → Z → World → get_outcome * World.
Variable find_all_href : string → list string.
Variable urljoin : string → string → result string.

Abbreviation loop_body := (loop_body requests_get find_all_href urljoin).
Abbreviation crawl_loop := (crawl_loop requests_get find_all_href urljoin).
Abbreviation crawl := (crawl requests_get find_all_href urljoin).
Abbreviation run := (run requests_get find_all_href urljoin).

Lemma loop_cond_queue MAX_PAGES st :
  loop_cond MAX_PAGES st = true →
  (∃ u rest, queue st = u :: rest)
  ∧ Z.of_nat (size (visited st)) < MAX_PAGES.
Proof.
  unfold loop_cond. intros [Hq Hlt]%andb_prop. split; [|lia].
  destruct (queue st) as [|u rest]; [done|]. by exists u, rest.
Qed.

(** The queue is what was put in (the seed, then the appended links)
    minus what was taken out, in the same order. *)
Lemma run_queue seed_domain MAX_PAGES st0 w0 tr st w :
  run seed_domain MAX_PAGES st0 w0 tr st w →
  queue st0 ++ appends tr = pops tr ++ queue st.
Proof.
  induction 1 as [|tr st w st1 w1 tr1 Hrun IH Hcond Hbody].
  - simpl. by rewrite app_nil_r.
  - apply loop_cond_queue in Hcond as [(u & rest & Hq) _].
    destruct (loop_body_inv _ _ _ _ _ _ _ _ _ _ _ Hq Hbody)
      as (Hpops & _ & Hq1 & _).
    rewrite appends_app, pops_app, Hpops, Hq1, app_assoc, IH, Hq.
    by rewrite <- !app_assoc.
Qed.

Lemma run_eligible seed_domain MAX_PAGES st0 w0 tr st w :
  run seed_domain MAX_PAGES st0 w0 tr st w →
  Forall (eligible seed_domain) (appends tr).
Proof.
  induction 1 as [|tr st w st1 w1 tr1 Hrun IH Hcond Hbody]; [done|].
  apply loop_cond_queue in Hcond as [(u & rest & Hq) _].
  destruct (loop_body_inv _ _ _ _ _ _ _ _ _ _ _ Hq Hbody) as (_ & He & _).
  rewrite appends_app. by apply Forall_app.
Qed.

Lemma run_visited_bound seed_domain MAX_PAGES st0 w0 tr st w :
  run seed_domain MAX_PAGES st0 w0 tr st w →
  Z.of_nat (size (visited st0)) ≤ Z.max 0 MAX_PAGES →
  Z.of_nat (size (visited st)) ≤ Z.max 0 MAX_PAGES.
Proof.
  induction 1 as [|tr st w st1 w1 tr1 Hrun IH Hcond Hbody]; [done|].
  intros H0. specialize (IH H0).
  apply loop_cond_queue in Hcond as [(u & rest & Hq) Hlt].
  destruct (loop_body_inv _ _ _ _ _ _ _ _ _ _ _ Hq Hbody)
    as (_ & _ & _ & [[-> _]|[Hnin ->]]); [done|].
  rewrite size_union by set_solver. rewrite size_singleton. lia.
Qed.

(** Iterations can be added in front of a run as well. *)
Lemma run_iter_front seed_domain MAX_PAGES st w st1 w1 tr1 tr2 st2 w2 :
  loop_cond MAX_PAGES st = true →
  loop_body seed_domain st w = (Ok st1, w1, tr1) →
  run seed_domain MAX_PAGES st1 w1 tr2 st2 w2 →
  run seed_domain MAX_PAGES st w (tr1 ++ tr2) st2 w2.
Proof.
  intros Hcond Hbody. induction 1 as [|tr st' w' st'' w'' tr' Hrun IH Hc Hb].
  - rewrite app_nil_r. rewrite <- (app_nil_l tr1).
    eapply run_iter; [apply run_start|done..].
  - rewrite app_assoc. eapply run_iter; done.
Qed.

(** What the fuelled loop returns is a run of the loop: to the state in
    which the loop condition fails, or to the iteration that raised. *)
Lemma crawl_loop_run seed_domain MAX_PAGES fuel : ∀ st w r w' tr,
  crawl_loop fuel seed_domain MAX_PAGES st w = Some (r, w', tr) →
  match r with
  | Ok st' =>
      run seed_domain MAX_PAGES st w tr st' w'
      ∧ loop_cond MAX_PAGES st' = false
  | Raise e =>
      ∃ tr1 st1 w1 tr2,
        run seed_domain MAX_PAGES st w tr1 st1 w1
        ∧ loop_cond MAX_PAGES st1 = true
        ∧ loop_body seed_domain st1 w1 = (Raise e, w', tr2)
        ∧ tr = tr1 ++ tr2
  end.
Proof.
  induction fuel as [|fuel IH]; intros st w r w' tr; simpl; [done|].
  destruct (loop_cond MAX_PAGES st) eqn:Hcond.
  - destruct (loop_body seed_domain st w) as [[[st1|e] w1] tr1] eqn:Hbody.
    + destruct (crawl_loop fuel seed_domain MAX_PAGES st1 w1)
        as [[[r2 w2] tr2]|] eqn:Hloop; [|done].
      intros [= <- <- <-]. specialize (IH _ _ _ _ _ Hloop).
      destruct r2 as [st2|e].
      * destruct IH as [Hrun Hend]. split; [|done].
        by eapply run_iter_front.
      * destruct IH as (tr3 & st3 & w3 & tr4 & Hrun & Hc & Hb & ->).
        exists (tr1 ++ tr3), st3, w3, tr4.
        split; [by eapply run_iter_front|].
        by rewrite app_assoc.
    + intros [= <- <- <-]. exists [], st, w, tr1.
      split; [apply run_start|]. done.
  - intros [= <- <- <-]. split; [apply run_start | done].
Qed.

End CrawlRuns.

Section CrawlTermination.

Context {World : Type}.
Variable requests_get : string → Z → World → get_outcome * World.
Variable find_all_href : string → list string.
Variable urljoin : string → string → result string.

Abbreviation loop_body := (loop_body requests_get find_all_href urljoin).
Abbreviation crawl_loop := (crawl_loop requests_get find_all_href urljoin).
Abbreviation crawl := (crawl requests_get find_all_href urljoin).

(** The loop ends: an iteration either visits a new page, of which at
    most [MAX_PAGES] fit, or shortens the queue. *)
Lemma crawl_loop_terminates seed_domain MAX_PAGES st w :
  ∃ fuel r w' tr,
    crawl_loop fuel seed_domain MAX_PAGES st w = Some (r, w', tr).
Proof.
  remember (Z.to_nat (MAX_PAGES - Z.of_nat (size (visited st)))) as m
    eqn:Hm.
  assert (Z.to_nat (MAX_PAGES - Z.of_nat (size (visited st))) ≤ m)%nat
    as Hle by lia.
  clear Hm. revert st w Hle.
  induction m as [|m IHm]; intros st w Hle.
  { exists 1%nat, (Ok st), w, []. simpl.
    unfold loop_cond. destruct (Z.ltb_spec (Z.of_nat (size (visited st)))
      MAX_PAGES) as [|_]; [lia|]. by rewrite andb_false_r. }
  remember (length (queue st)) as n eqn:Hn.
  assert (length (queue st) ≤ n)%nat as Hlen by lia.
  clear Hn. revert st w Hle Hlen.
  induction n as [|n IHn]; intros st w Hle Hlen.
  { exists 1%nat, (Ok st), w, []. simpl. unfold loop_cond.
    destruct (queue st); [done | simpl in Hlen; lia]. }
  destruct (loop_cond MAX_PAGES st) eqn:Hcond;
    [|exists 1%nat, (Ok st), w, []; simpl; by rewrite Hcond].
  destruct (loop_body seed_domain st w) as [[[st1|e] w1] tr1] eqn:Hbody;
    [|exists 1%nat, (Raise e), w1, tr1; simpl; by rewrite Hcond, Hbody].
  pose proof (loop_cond_queue _ _ Hcond) as [(u & rest & Hq) Hlt].
  destruct (loop_body_inv _ _ _ _ _ _ _ _ _ _ _ Hq Hbody)
    as (_ & _ & _ & Hcase).
  assert (∃ fuel r w' tr,
            crawl_loop fuel seed_domain MAX_PAGES st1 w1
            = Some (r, w', tr)) as (fuel & r & w' & tr & Hloop).
  { destruct Hcase as [[Hv Hq1]|[Hnin Hv]].
    - apply IHn; [by rewrite Hv|].
      rewrite Hq1. rewrite Hq in Hlen. simpl in Hlen. lia.
    - apply IHm. rewrite Hv.
      rewrite size_union by (apply disjoint_singleton_l; exact Hnin).
      rewrite size_singleton. lia. }
  exists (S fuel), r, w', (tr1 ++ tr). simpl.
  by rewrite Hcond, Hbody, Hloop.
Qed.

(** A call of [crawl] returns, given enough fuel. *)
Lemma crawl_terminates seed_url MAX_PAGES w :
  ∃ fuel r w' tr, crawl fuel seed_url MAX_PAGES w = Some (r, w', tr).
Proof.
  unfold Crawler.crawl.
  destruct (UrlParse.urlparse seed_url) as [parsed|e];
    [|by exists 0%nat, (Raise e), w, [EvMakedirs]].
  destruct (crawl_loop_terminates (UrlParse.netloc parsed) MAX_PAGES
              (init_state seed_url) w) as (fuel & r & w' & tr & Hloop).
  exists fuel. rewrite Hloop. destruct r; by eexists _, _, _.
Qed.

End CrawlTermination.


Lemma prefix_lookup_earlier {A} (l1 l2 : list A) i j x y :
  l1 `prefix_of` l2 → (i < j)%nat →
  l2 !! i = Some x → l1 !! j = Some y → l1 !! i = Some x.
Proof.
  intros [k ->] Hij Hi Hj. apply lookup_lt_Some in Hj.
  by rewrite lookup_app_l in Hi by lia.
Qed.

Section CrawlClaims.

Context {World : Type}.
Variable requests_get : string → Z → World → get_outcome * World.
Variable find_all_href : string → list string.
Variable urljoin : string → string → result string.

Abbreviation fetch_with_retry := (fetch_with_retry requests_get).
Abbreviation link_loop := (link_loop urljoin).
Abbreviation loop_body := (loop_body requests_get find_all_href urljoin).
Abbreviation crawl_loop := (crawl_loop requests_get find_all_href urljoin).
Abbreviation crawl := (crawl requests_get find_all_href urljoin).
Abbreviation run := (run requests_get find_all_href urljoin).

(** The events of a call of [crawl] are those of its loop, after the
    folder is made and before the two reports. *)
Lemma crawl_inv fuel seed_url MAX_PAGES w r w' tr :
  crawl fuel seed_url MAX_PAGES w = Some (r, w', tr) →
  (∃ e, UrlParse.urlparse seed_url = Raise e
        ∧ r = Raise e ∧ tr = [EvMakedirs])
  ∨ ∃ parsed ltr,
      UrlParse.urlparse seed_url = Ok parsed
      ∧ crawl_loop fuel (UrlParse.netloc parsed) MAX_PAGES
          (init_state seed_url) w = Some (r, w', ltr)
      ∧ pops tr = pops ltr ∧ appends tr = appends ltr.
Proof.
  unfold Crawler.crawl.
  destruct (UrlParse.urlparse seed_url) as [parsed|e];
    [|intros [= <- <- <-]; left; by exists e].
  destruct (crawl_loop fuel (UrlParse.netloc parsed) MAX_PAGES
              (init_state seed_url) w) as [[[[st|e] w1] ltr]|] eqn:Hloop;
    [| |done].
  - intros [= <- <- <-]. right. exists parsed, ltr.
    split; [done|]. split; [done|].
    change (EvMakedirs :: ltr ++ ?l) with ([EvMakedirs] ++ ltr ++ l).
    rewrite !pops_app, !appends_app. simpl. by rewrite !app_nil_r.
  - intros [= <- <- <-]. right. by exists parsed, ltr.
Qed.

(** The queue events of a loop, whether it ended or raised. *)
Lemma crawl_loop_queue_events fuel seed_domain MAX_PAGES st w r w' tr :
  crawl_loop fuel seed_domain MAX_PAGES st w = Some (r, w', tr) →
  Forall (eligible seed_domain) (appends tr)
  ∧ pops tr `prefix_of` queue st ++ appends tr
  ∧ ∀ st', r = Ok st' → queue st ++ appends tr = pops tr ++ queue st'.
Proof.
  intros Hloop. apply crawl_loop_run in Hloop. destruct r as [st'|e].
  - destruct Hloop as [Hrun _]. split; [by eapply run_eligible|].
    pose proof (run_queue _ _ _ _ _ _ _ _ _ _ Hrun) as Hq.
    split; [rewrite Hq; by apply prefix_app_r|].
    by intros ? [= <-].
  - destruct Hloop as (tr1 & st1 & w1 & tr2 & Hrun & Hc & Hb & ->).
    apply loop_cond_queue in Hc as [(u & rest & Hq1) _].
    destruct (loop_body_inv _ _ _ _ _ _ _ _ _ _ _ Hq1 Hb)
      as (Hpops & Helig & _).
    pose proof (run_queue _ _ _ _ _ _ _ _ _ _ Hrun) as Hq.
    rewrite appends_app, pops_app, Hpops. split; [|split; [|done]].
    + apply Forall_app. split; [by eapply run_eligible | done].
    + rewrite app_assoc, Hq, Hq1.
      exists (rest ++ appends tr2).
      by rewrite <- !app_assoc.
Qed.

(** C6: every URL the crawl enqueues has passed the validator and has
    the network location of the seed (and so has all that ever enters the
    queue, when the seed is itself a valid URL); of the links
    [https://example.com/a], [https://other.com/b] and
    [mailto:x@y.com] on a page of [example.com] only the first is
    enqueued. *)
Theorem enqueued_urls_eligible :
  (∀ fuel seed_url MAX_PAGES w r w' tr parsed,
     UrlParse.urlparse seed_url = Ok parsed →
     crawl fuel seed_url MAX_PAGES w = Some (r, w', tr) →
     Forall (eligible (UrlParse.netloc parsed)) (appends tr)
     ∧ (is_valid_url seed_url = Ok true →
        Forall (eligible (UrlParse.netloc parsed))
          (seed_url :: appends tr)))
  ∧ (∀ current_url,
       Forall (fun link => urljoin current_url link = Ok link)
         ["https://example.com/a"; "https://other.com/b";
          "mailto:x@y.com"] →
       link_loop "example.com" current_url
         ["https://example.com/a"; "https://other.com/b";
          "mailto:x@y.com"]
       = (["https://example.com/a"], None)).
Proof.
  split.
  - intros fuel seed_url MAX_PAGES w r w' tr parsed Hparse Hcrawl.
    apply crawl_inv in Hcrawl
      as [(e & He & _ & _)|(parsed' & ltr & Hp & Hloop & _ & ->)];
      [congruence|].
    assert (parsed' = parsed) as -> by congruence.
    apply crawl_loop_queue_events in Hloop as [Helig _].
    split; [done|]. intros Hseed. constructor; [|done].
    split; [done|]. by exists parsed.
  - intros current_url Hjoin.
    apply Forall_cons in Hjoin as [Ha Hjoin].
    apply Forall_cons in Hjoin as [Hb Hjoin].
    apply Forall_cons in Hjoin as [Hc _].
    simpl. by rewrite Ha, Hb, Hc.
Qed.

(** C7: the number of visited pages never exceeds [MAX_PAGES] (and is
    zero when [MAX_PAGES] is negative), in every state of a run and at
    its end, and every crawl does end; on five interlinked pages a crawl
    with [MAX_PAGES = 2] visits exactly two and stops with links left in
    the queue. *)
Theorem visited_bounded_by_max_pages :
  (∀ seed_domain MAX_PAGES seed_url w tr st w',
     run seed_domain MAX_PAGES (init_state seed_url) w tr st w' →
     Z.of_nat (size (visited st)) ≤ Z.max 0 MAX_PAGES)
  ∧ (∀ fuel seed_url MAX_PAGES w st w' tr,
       crawl fuel seed_url MAX_PAGES w = Some (Ok st, w', tr) →
       Z.of_nat (size (visited st)) ≤ Z.max 0 MAX_PAGES)
  ∧ (∀ seed_url MAX_PAGES w,
       ∃ fuel r w' tr, crawl fuel seed_url MAX_PAGES w = Some (r, w', tr))
  ∧ ∃ st tr,
      Crawler.crawl (static_get five_pages) links_of_text join_absolute
        10 "http://site.test/" 2 ()
      = Some (Ok st, (), tr)
      ∧ size (visited st) = 2%nat
      ∧ queue st
        = ["http://site.test/b"; "http://site.test/c"; "http://site.test/"].
Proof.
  assert (∀ seed_domain MAX_PAGES seed_url w tr st w',
    run seed_domain MAX_PAGES (init_state seed_url) w tr st w' →
    Z.of_nat (size (visited st)) ≤ Z.max 0 MAX_PAGES) as Hrun.
  { intros seed_domain MAX_PAGES seed_url w tr st w' Hrun.
    apply (run_visited_bound _ _ _ _ _ _ _ _ _ _ Hrun).
    change (Z.of_nat (size (∅ : gset string)) ≤ Z.max 0 MAX_PAGES).
    rewrite size_empty. lia. }
  split; [exact Hrun|]. split.
  - intros fuel seed_url MAX_PAGES w st w' tr Hcrawl.
    apply crawl_inv in Hcrawl
      as [(e & _ & He & _)|(parsed & ltr & Hp & Hloop & _)]; [done|].
    apply crawl_loop_run in Hloop as [Hr _]. by eapply Hrun.
  - split; [apply crawl_terminates|].
    eexists _, _. split; [vm_compute; reflexivity|].
    split; vm_compute; reflexivity.
Qed.

End CrawlClaims.

Section CrawlOrder.

Context {World : Type}.
Variable requests_get : string → Z → World → get_outcome * World.
Variable find_all_href : string → list string.
Variable urljoin : string → string → result string.

Abbreviation fetch_with_retry := (fetch_with_retry requests_get).
Abbreviation loop_body := (loop_body requests_get find_all_href urljoin).
Abbreviation crawl_loop := (crawl_loop requests_get find_all_href urljoin).
Abbreviation crawl := (crawl requests_get find_all_href urljoin).

(** C8: the frontier is first in, first out.  The URLs leave the queue
    in exactly the order in which they entered it (the seed first, then
    the links as appended): what has been dequeued is an initial part
    of what has been enqueued, what is left is the rest, and of two
    URLs the one enqueued earlier is dequeued earlier. *)
Theorem frontier_fifo fuel seed_url MAX_PAGES w r w' tr :
  crawl fuel seed_url MAX_PAGES w = Some (r, w', tr) →
  pops tr `prefix_of` seed_url :: appends tr
  ∧ (∀ st, r = Ok st → seed_url :: appends tr = pops tr ++ queue st)
  ∧ (∀ i j A B, (i < j)%nat →
       (seed_url :: appends tr) !! i = Some A →
       (seed_url :: appends tr) !! j = Some B →
       pops tr !! j = Some B →
       pops tr !! i = Some A).
Proof.
  intros Hcrawl.
  assert (pops tr `prefix_of` seed_url :: appends tr
          ∧ (∀ st, r = Ok st →
               seed_url :: appends tr = pops tr ++ queue st))
    as [Hprefix Hrest].
  { apply crawl_inv in Hcrawl
      as [(e & _ & -> & ->)|(parsed & ltr & _ & Hloop & -> & ->)].
    - split; [apply prefix_nil | done].
    - apply crawl_loop_queue_events in Hloop as (_ & Hp & Hq). done. }
  split; [done|]. split; [done|].
  intros i j A B Hij HA _ HB. by eapply prefix_lookup_earlier.
Qed.

(** C10, as the code has it: with [MAX_PAGES] zero or negative the
    loop body is never entered: whatever the seed, no URL is taken from
    the queue and no request is made.  For a seed that [urlparse]
    accepts nothing is visited, the visited file is written empty, and
    the summary reports zero pages and zero duplicates.  For a seed on
    which [urlparse] raises the call raises that exception once the
    folder is made, and writes neither the visited file nor the
    summary. *)
Theorem crawl_nonpositive_max_pages fuel seed_url MAX_PAGES w :
  MAX_PAGES ≤ 0 →
  (∃ r tr, crawl (S fuel) seed_url MAX_PAGES w = Some (r, w, tr)
           ∧ count_gets tr = 0%nat ∧ pops tr = [])
  ∧ (∀ parsed,
       UrlParse.urlparse seed_url = Ok parsed →
       crawl (S fuel) seed_url MAX_PAGES w
       = Some (Ok (mkState [seed_url] ∅ 0 1), w,
               [EvMakedirs; EvWriteVisited []; EvSummary 0 0 0]))
  ∧ ∀ e,
      UrlParse.urlparse seed_url = Raise e →
      crawl (S fuel) seed_url MAX_PAGES w
      = Some (Raise e, w, [EvMakedirs]).
Proof.
  intros Hmax.
  assert (loop_cond MAX_PAGES (init_state seed_url) = false) as Hcond.
  { unfold loop_cond, init_state. cbn [visited queue].
    rewrite size_empty.
    destruct (Z.ltb_spec (Z.of_nat 0) MAX_PAGES) as [|_]; [lia|].
    by rewrite andb_false_r. }
  assert (∀ parsed,
    UrlParse.urlparse seed_url = Ok parsed →
    crawl (S fuel) seed_url MAX_PAGES w
    = Some (Ok (mkState [seed_url] ∅ 0 1), w,
            [EvMakedirs; EvWriteVisited []; EvSummary 0 0 0])) as Hok.
  { intros parsed Hparse. unfold Crawler.crawl. rewrite Hparse.
    cbn [Crawler.crawl_loop]. rewrite Hcond.
    unfold init_state. cbn [visited duplicate_urls].
    by rewrite size_empty, elements_empty. }
  assert (∀ e,
    UrlParse.urlparse seed_url = Raise e →
    crawl (S fuel) seed_url MAX_PAGES w
    = Some (Raise e, w, [EvMakedirs])) as Hraise.
  { intros e Hparse. unfold Crawler.crawl. by rewrite Hparse. }
  split; [|split; [exact Hok | exact Hraise]].
  destruct (UrlParse.urlparse seed_url) as [parsed|e] eqn:Hparse.
  - eexists _, _. split; [by apply (Hok parsed)|]. done.
  - eexists _, _. split; [by apply (Hraise e)|]. done.
Qed.


End CrawlOrder.

(** ** The crawler on the small networks *)

Lemma crawl_five_pages :
  crawl (static_get five_pages) links_of_text join_absolute 10
    "http://site.test/" 2 ()
  = Some
      (Ok (mkState
             ["http://site.test/b"; "http://site.test/c"; "http://site.test/"]
             ({["http://site.test/a"]} ∪ {["http://site.test/"]}) 0 3),
       (),
       [EvMakedirs;
        EvPop "http://site.test/"; EvGet "http://site.test/" 8;
        EvSave 1 "http://site.test/a http://site.test/b";
        EvAppend "http://site.test/a"; EvAppend "http://site.test/b";
        EvSleep (1 # 2);
        EvPop "http://site.test/a"; EvGet "http://site.test/a" 8;
        EvSave 2 "http://site.test/c http://site.test/";
        EvAppend "http://site.test/c"; EvAppend "http://site.test/";
        EvSleep (1 # 2);
        EvWriteVisited ["http://site.test/a"; "http://site.test/"];
        EvSummary 2 2 0]).
Proof. vm_compute. reflexivity. Qed.

Lemma enqueued_urls_eligible_witness :
  Forall (eligible "site.test")
    ["http://site.test/a"; "http://site.test/b"; "http://site.test/c";
     "http://site.test/"]
  ∧ link_loop join_absolute "example.com" "https://example.com/"
      ["https://example.com/a"; "https://other.com/b"; "mailto:x@y.com"]
    = (["https://example.com/a"], None).
Proof.
  destruct (enqueued_urls_eligible (static_get five_pages) links_of_text
              join_absolute) as [Hall Hlinks].
  split.
  - exact (proj1 (Hall 10%nat "http://site.test/" 2 () _ _ _
                    (UrlParse.mkParse "http" "site.test") eq_refl
                    crawl_five_pages)).
  - apply Hlinks. repeat constructor.
Defined.

Lemma visited_bounded_by_max_pages_witness :
  Z.of_nat (size ({["http://site.test/a"]} ∪ {["http://site.test/"]}
                    : gset string)) ≤ Z.max 0 2.
Proof.
  destruct (visited_bounded_by_max_pages (static_get five_pages)
              links_of_text join_absolute) as (_ & Hend & _ & _).
  exact (Hend 10%nat "http://site.test/" 2 () _ _ _ crawl_five_pages).
Defined.

Lemma frontier_fifo_witness :
  ["http://site.test/"; "http://site.test/a"]
    `prefix_of` ["http://site.test/"; "http://site.test/a";
                 "http://site.test/b"; "http://site.test/c";
                 "http://site.test/"]
  ∧ ["http://site.test/"; "http://site.test/a"; "http://site.test/b";
     "http://site.test/c"; "http://site.test/"]
    = ["http://site.test/"; "http://site.test/a"]
      ++ ["http://site.test/b"; "http://site.test/c"; "http://site.test/"]
  ∧ ["http://site.test/"; "http://site.test/a"] !! 0%nat
    = Some "http://site.test/".
Proof.
  destruct (frontier_fifo (static_get five_pages) links_of_text
              join_absolute 10 "http://site.test/" 2 () _ _ _
              crawl_five_pages) as (Hprefix & Hrest & Horder).
  split; [exact Hprefix|]. split; [exact (Hrest _ eq_refl)|].
  apply (Horder 0%nat 1%nat "http://site.test/" "http://site.test/a");
    [lia | reflexivity | reflexivity | reflexivity].
Defined.

Lemma crawl_nonpositive_max_pages_witness :
  crawl (static_get five_pages) links_of_text join_absolute 1
    "https://books.toscrape.com" 0 ()
  = Some (Ok (mkState ["https://books.toscrape.com"] ∅ 0 1), (),
          [EvMakedirs; EvWriteVisited []; EvSummary 0 0 0]).
Proof.
  destruct (crawl_nonpositive_max_pages (static_get five_pages)
              links_of_text join_absolute 0 "https://books.toscrape.com" 0 ())
    as (_ & Hok & _); [lia|].
  exact (Hok (UrlParse.mkParse "https" "books.toscrape.com") eq_refl).
Defined.

(** C10, as stated, fails for a seed on which [urlparse] raises: with
    [MAX_PAGES = 0] and the seed [http://[] the call raises
    [ValueError] right after the folder is made, so no visited file is
    written and no summary is printed, whatever the fuel. *)
Lemma crawl_nonpositive_max_pages_unparsed_seed :
  crawl (static_get five_pages) links_of_text join_absolute 1
    "http://[" 0 ()
  = Some (Raise ValueError, (), [EvMakedirs])
  ∧ ¬ ∃ fuel st w' tr,
        crawl (static_get five_pages) links_of_text join_absolute fuel
          "http://[" 0 () = Some (Ok st, w', tr).
Proof.
  split; [reflexivity|]. intros (fuel & st & w' & tr & Hrun).
  unfold crawl in Hrun.
  change (UrlParse.urlparse "http://[")
    with (Raise ValueError : result UrlParse.ParseResult) in Hrun.
  discriminate Hrun.
Qed.



(** * Further properties of the indexer *)

Lemma lower_char_idemp c :
  PyStr.lower_char (PyStr.lower_char c) = PyStr.lower_char c.
Proof. destruct c as [[] [] [] [] [] [] [] []]; reflexivity. Qed.

Lemma str_forallb_rev_app p s1 : ∀ s2,
  PyStr.forallb p (String.rev_app s1 s2)
  = PyStr.forallb p s1 && PyStr.forallb p s2.
Proof.
  induction s1 as [|c s1 IH]; intros s2; simpl; [done|].
  rewrite IH. simpl. rewrite !andb_assoc. f_equal. apply andb_comm.
Qed.

Lemma str_forallb_rev p s :
  PyStr.forallb p (String.rev s) = PyStr.forallb p s.
Proof.
  unfold String.rev. rewrite str_forallb_rev_app. simpl. apply andb_true_r.
Qed.

Lemma rev_app_nonempty s1 : ∀ c s2,
  String.rev_app s1 (String c s2) ≠ EmptyString.
Proof. induction s1 as [|a s1 IH]; intros c s2; simpl; [done|apply IH]. Qed.

Lemma rev_nonempty c s : String.rev (String c s) ≠ EmptyString.
Proof. apply rev_app_nonempty. Qed.

Lemma str_forallb_and p q s :
  PyStr.forallb (fun c => p c && q c) s = true →
  PyStr.forallb p s = true ∧ PyStr.forallb q s = true.
Proof.
  induction s as [|c s IH]; simpl; [done|].
  intros [[Hp Hq]%andb_prop [Hps Hqs]%IH]%andb_prop.
  by rewrite Hp, Hq, Hps, Hqs.
Qed.

Lemma forallb_lower_lower s :
  PyStr.forallb is_lower_char (PyStr.lower s) = true.
Proof.
  induction s as [|c s IH]; simpl; [done|].
  rewrite IH, andb_true_r. unfold is_lower_char.
  apply bool_decide_eq_true_2, lower_char_idemp.
Qed.

Lemma lower_fixed s :
  PyStr.forallb is_lower_char s = true → PyStr.lower s = s.
Proof.
  induction s as [|c s IH]; simpl; [done|].
  intros [Hc Hs]%andb_prop. apply bool_decide_eq_true_1 in Hc.
  by rewrite Hc, IH.
Qed.

(** The words [split] returns are non-empty runs of the characters of
    its input that are not whitespace. *)
Lemma split_go_tokens (q : ascii → bool) s : ∀ cur w,
  PyStr.forallb (fun c => no_space c && q c) cur = true →
  PyStr.forallb q s = true →
  w ∈ PyStr.split_go cur s →
  w ≠ EmptyString ∧ PyStr.forallb (fun c => no_space c && q c) w = true.
Proof.
  induction s as [|c s IH]; intros cur w Hcur Hs; simpl.
  - destruct cur as [|a cur]; simpl; [by intros ?%elem_of_nil|].
    intros ->%list_elem_of_singleton. split; [apply rev_nonempty|].
    by rewrite str_forallb_rev.
  - simpl in Hs. apply andb_prop in Hs as [Hc Hs].
    destruct (PyStr.isspace c) eqn:Hsp.
    + destruct cur as [|a cur]; simpl.
      * by apply IH.
      * intros [->|Hw]%elem_of_cons.
        -- split; [apply rev_nonempty|]. by rewrite str_forallb_rev.
        -- by apply (IH EmptyString).
    + apply IH; [|done]. simpl. rewrite Hcur, Hc.
      unfold no_space. by rewrite Hsp.
Qed.

Lemma ln_monotone x y : (0 < x)%R → (x <= y)%R → (ln x <= ln y)%R.
Proof.
  intros Hx [Hlt| ->]; [|apply Rle_refl].
  left. by apply ln_increasing.
Qed.

Lemma idf_value_difference doc_count docs :
  (1 ≤ length docs)%nat → Z.of_nat (length docs) ≤ doc_count →
  idf_value doc_count docs
  = (ln (IZR doc_count) - ln (INR (length docs)))%R.
Proof.
  intros Hlen Hcount. unfold idf_value, Rdiv.
  assert (0 < INR (length docs))%R as Hpos by (apply lt_0_INR; lia).
  assert (0 < IZR doc_count)%R as Hn by (apply IZR_lt; lia).
  rewrite ln_mult, ln_Rinv; [lra|done|done|].
  by apply Rinv_0_lt_compat.
Qed.

Section IndexerExtras.

Variable get_text : string → string.

Lemma words_of_tokens content w :
  w ∈ words_of get_text content →
  w ≠ EmptyString ∧ PyStr.forallb no_space w = true ∧ PyStr.lower w = w.
Proof.
  unfold words_of, PyStr.split. intros Hw.
  apply (split_go_tokens is_lower_char) in Hw as [Hne Hall];
    [|done|apply forallb_lower_lower].
  apply str_forallb_and in Hall as [Hsp Hlow].
  split; [done|]. split; [done|]. by apply lower_fixed.
Qed.

Lemma elem_of_docs_with w listing file :
  file ∈ docs_with get_text w listing
  ↔ ∃ content, (file, content) ∈ listing
               ∧ PyStr.endswith file ".html" = true
               ∧ w ∈ words_of get_text content.
Proof.
  unfold docs_with, documents. rewrite list_elem_of_fmap. split.
  - intros ([f content] & ->
            & [Hw [Hd Hin]%list_elem_of_filter]%list_elem_of_filter).
    by exists content.
  - intros (content & Hin & Hd & Hw). exists (file, content).
    split; [done|]. apply list_elem_of_filter. split; [done|].
    by apply list_elem_of_filter.
Qed.

Lemma read_pages_lookup listing w :
  inverted_index (read_pages get_text listing) !! w
  = if decide (docs_with get_text w listing = []) then None
    else Some (docs_with get_text w listing).
Proof.
  destruct (decide (docs_with get_text w listing = [])) as [Hnil|Hne].
  - apply posting_nil_lookup; [apply read_pages_nonempty|].
    by rewrite read_pages_posting.
  - apply posting_lookup; [apply read_pages_posting | done].
Qed.

(** What a completed run has written. *)
Lemma indexer_output listing out :
  indexer get_text (Some listing) = Ok out →
  inverted_index_json out = inverted_index (read_pages get_text listing)
  ∧ documents_indexed out = Z.of_nat (length (documents listing))
  ∧ ∀ w, idf_json out !! w
         = idf_value (Z.of_nat (length (documents listing)))
             <$> inverted_index (read_pages get_text listing) !! w.
Proof.
  destruct (indexer_completes get_text listing) as (idf & Hrun & Hlook).
  rewrite Hrun. intros [= <-]. simpl.
  split; [done|]. split; [apply read_pages_doc_count|].
  intros w. by rewrite Hlook, read_pages_doc_count.
Qed.

Lemma foldl_read_page_documents listing : ∀ st,
  foldl (read_page get_text) st listing
  = foldl (read_page get_text) st (documents listing).
Proof.
  induction listing as [|entry listing IH]; intros st; [done|].
  unfold documents. rewrite filter_cons. fold (documents listing).
  destruct (decide (is_document entry)) as [Hd|Hd]; cbn [foldl].
  - apply IH.
  - rewrite <- IH. f_equal. unfold read_page.
    unfold is_document in Hd. by apply not_true_is_false in Hd as ->.
Qed.

Lemma docs_with_Permutation w listing listing' :
  documents listing ≡ₚ documents listing' →
  docs_with get_text w listing ≡ₚ docs_with get_text w listing'.
Proof. intros Hp. unfold docs_with. by rewrite Hp. Qed.

(** X1: the posting list of a word is exactly the names of the [.html]
    entries whose text has the word among its lowercased,
    whitespace-separated words, in listing order; a word of no document
    has no entry at all. *)
Theorem posting_lists_exact (listing : list (string * string)) (w : string) :
  let idx := inverted_index (read_pages get_text listing) in
  idx !! w
  = (if decide (docs_with get_text w listing = []) then None
     else Some (docs_with get_text w listing))
  ∧ ∀ file,
      file ∈ posting idx w
      ↔ ∃ content, (file, content) ∈ listing
                   ∧ PyStr.endswith file ".html" = true
                   ∧ w ∈ words_of get_text content.
Proof.
  split; [apply read_pages_lookup|].
  intros file. rewrite read_pages_posting. apply elem_of_docs_with.
Qed.

(** X2: every term of the written index is a non-empty word without
    whitespace that [str.lower] leaves unchanged, and the IDF table has
    a score for it. *)
Theorem index_terms_normalised listing out w docs :
  indexer get_text (Some listing) = Ok out →
  inverted_index_json out !! w = Some docs →
  w ≠ EmptyString
  ∧ PyStr.forallb no_space w = true
  ∧ PyStr.lower w = w
  ∧ is_Some (idf_json out !! w).
Proof.
  intros (Hidx & _ & Hidf)%indexer_output Hw. rewrite Hidx in Hw.
  assert (is_Some (idf_json out !! w)) as Hsome.
  { rewrite Hidf, Hw. by eexists. }
  rewrite read_pages_lookup in Hw.
  destruct (decide (docs_with get_text w listing = [])) as [|Hne]; [done|].
  destruct (docs_with get_text w listing) as [|file rest] eqn:Hdocs; [done|].
  assert (file ∈ docs_with get_text w listing) as Hin
    by (rewrite Hdocs; apply list_elem_of_here).
  apply elem_of_docs_with in Hin as (content & _ & _ & Hin).
  apply words_of_tokens in Hin as (? & ? & ?). done.
Qed.

(** X3: directory entries whose name does not end in [.html] are never
    looked at: two listings with the same documents give the same
    result. *)
Theorem indexer_ignores_other_files listing listing' :
  documents listing = documents listing' →
  indexer get_text (Some listing) = indexer get_text (Some listing').
Proof.
  intros Hdocs. unfold indexer, read_pages.
  by rewrite (foldl_read_page_documents listing),
    (foldl_read_page_documents listing'), Hdocs.
Qed.

(** X4: the order in which [os.listdir] returns the documents changes
    neither the document count nor the IDF table, and it only reorders
    the posting lists. *)
Theorem indexer_order_independent listing listing' :
  documents listing ≡ₚ documents listing' →
  ∃ out out',
    indexer get_text (Some listing) = Ok out
    ∧ indexer get_text (Some listing') = Ok out'
    ∧ idf_json out = idf_json out'
    ∧ documents_indexed out = documents_indexed out'
    ∧ ∀ w, posting (inverted_index_json out) w
           ≡ₚ posting (inverted_index_json out') w.
Proof.
  intros Hp.
  destruct (indexer_completes get_text listing) as (idf & Hrun & _).
  destruct (indexer_completes get_text listing') as (idf' & Hrun' & _).
  eexists _, _. split; [exact Hrun|]. split; [exact Hrun'|].
  apply indexer_output in Hrun as (Hidx & Hn & Hidf).
  apply indexer_output in Hrun' as (Hidx' & Hn' & Hidf').
  simpl in *.
  assert (length (documents listing) = length (documents listing')) as Hlen
    by (by rewrite Hp).
  split; [|split].
  - apply map_eq. intros w. rewrite Hidf, Hidf', !read_pages_lookup, Hlen.
    pose proof (docs_with_Permutation w _ _ Hp) as Hw.
    destruct (decide (docs_with get_text w listing = [])) as [Hnil|Hne];
      destruct (decide (docs_with get_text w listing' = [])) as [Hnil'|Hne'].
    + done.
    + rewrite Hnil in Hw. by apply Permutation_nil_l in Hw.
    + rewrite Hnil' in Hw. by apply Permutation_nil_r in Hw.
    + simpl. unfold idf_value. by rewrite Hw.
  - rewrite !read_pages_doc_count. by rewrite Hlen.
  - intros w. rewrite !read_pages_posting. by apply docs_with_Permutation.
Qed.

(** X5: a term found in fewer documents never scores lower than one
    found in more; no score exceeds the logarithm of the document
    count; and a score is zero exactly when the term occurs in every
    document. *)
Theorem idf_rarer_scores_higher listing out w1 w2 docs1 docs2 :
  indexer get_text (Some listing) = Ok out →
  inverted_index_json out !! w1 = Some docs1 →
  inverted_index_json out !! w2 = Some docs2 →
  (length docs1 ≤ length docs2)%nat →
  ∃ s1 s2,
    idf_json out !! w1 = Some s1
    ∧ idf_json out !! w2 = Some s2
    ∧ (s2 <= s1)%R
    ∧ (s1 <= ln (IZR (documents_indexed out)))%R
    ∧ (s1 = 0%R ↔ Z.of_nat (length docs1) = documents_indexed out).
Proof.
  intros Hrun Hw1 Hw2 Hle.
  destruct (indexer_completes get_text listing) as (idf & Hrun' & Hlook).
  rewrite Hrun' in Hrun. injection Hrun as <-. simpl in *.
  set (N := doc_count (read_pages get_text listing)) in *.
  pose proof (read_pages_posting_bounds _ _ _ _ Hw1) as [H1 HN1].
  pose proof (read_pages_posting_bounds _ _ _ _ Hw2) as [H2 HN2].
  fold N in HN1, HN2.
  exists (idf_value N docs1), (idf_value N docs2).
  split; [by rewrite Hlook, Hw1|]. split; [by rewrite Hlook, Hw2|].
  rewrite !idf_value_difference by done.
  assert (0 < INR (length docs1))%R as Hpos1 by (apply lt_0_INR; lia).
  assert (ln (INR (length docs1)) <= ln (INR (length docs2)))%R as Hmono.
  { apply ln_monotone; [done|]. by apply le_INR. }
  assert (0 <= ln (INR (length docs1)))%R as Hnonneg.
  { rewrite <- ln_1. apply ln_monotone; [lra|].
    change 1%R with (INR 1). by apply le_INR. }
  split; [lra|]. split; [lra|]. split.
  - intros Heq. apply eq_IZR. rewrite <- INR_IZR_INZ.
    apply ln_inv; [done | apply IZR_lt; lia | lra].
  - intros <-. rewrite <- INR_IZR_INZ. lra.
Qed.

(** X6: the script fails in one way only: the pages folder is missing,
    and then with [FileNotFoundError]; the division and the logarithm
    never raise. *)
Theorem indexer_fails_only_without_folder pages_dir e :
  indexer get_text pages_dir = Raise e
  ↔ pages_dir = None ∧ e = FileNotFoundError.
Proof.
  split.
  - destruct pages_dir as [listing|]; [|by intros [= <-]].
    destruct (indexer_completes get_text listing) as (idf & -> & _). done.
  - by intros [-> ->].
Qed.

End IndexerExtras.

Lemma index_terms_normalised_witness :
  ∃ out,
    indexer plain_text (Some two_pages) = Ok out
    ∧ inverted_index_json out !! "cat" = Some ["page_1.html"; "page_2.html"]
    ∧ "cat" ≠ EmptyString
    ∧ PyStr.forallb no_space "cat" = true
    ∧ PyStr.lower "cat" = "cat"
    ∧ is_Some (idf_json out !! "cat").
Proof.
  destruct (indexer_completes plain_text two_pages) as (idf & Hrun & _).
  eexists. split; [exact Hrun|].
  assert (inverted_index (read_pages plain_text two_pages) !! "cat"
          = Some ["page_1.html"; "page_2.html"]) as Hcat
    by (vm_compute; reflexivity).
  split; [exact Hcat|].
  exact (index_terms_normalised plain_text two_pages _ "cat" _ Hrun Hcat).
Defined.

Lemma indexer_ignores_other_files_witness :
  indexer plain_text (Some two_pages)
  = indexer plain_text
      (Some [("page_1.html", "Cat dog cat"); ("page_2.html", "the CAT")]).
Proof. apply indexer_ignores_other_files. reflexivity. Defined.

Lemma indexer_order_independent_witness :
  ∃ out out',
    indexer plain_text (Some two_pages) = Ok out
    ∧ indexer plain_text
        (Some [("page_2.html", "the CAT"); ("notes.txt", "cat");
               ("page_1.html", "Cat dog cat")]) = Ok out'
    ∧ idf_json out = idf_json out'
    ∧ documents_indexed out = documents_indexed out'
    ∧ ∀ w, posting (inverted_index_json out) w
           ≡ₚ posting (inverted_index_json out') w.
Proof.
  apply indexer_order_independent. vm_compute. apply perm_swap.
Defined.

Lemma idf_rarer_scores_higher_witness :
  ∃ out s1 s2,
    indexer plain_text (Some two_pages) = Ok out
    ∧ idf_json out !! "dog" = Some s1
    ∧ idf_json out !! "cat" = Some s2
    ∧ (s2 <= s1)%R
    ∧ (s1 <= ln (IZR (documents_indexed out)))%R
    ∧ (s1 = 0%R ↔ Z.of_nat (length ["page_1.html"]) = documents_indexed out).
Proof.
  destruct (indexer_completes plain_text two_pages) as (idf & Hrun & _).
  assert (inverted_index (read_pages plain_text two_pages) !! "dog"
          = Some ["page_1.html"]) as Hdog by (vm_compute; reflexivity).
  assert (inverted_index (read_pages plain_text two_pages) !! "cat"
          = Some ["page_1.html"; "page_2.html"]) as Hcat
    by (vm_compute; reflexivity).
  destruct (idf_rarer_scores_higher plain_text two_pages _ "dog" "cat" _ _
              Hrun Hdog Hcat) as (s1 & s2 & H); [simpl; lia|].
  eexists _, s1, s2. split; [exact Hrun|]. exact H.
Defined.

(** * Further properties of the URL validator *)

Lemma isspace_lower_char c :
  PyStr.isspace (PyStr.lower_char c) = PyStr.isspace c.
Proof. destruct c as [[] [] [] [] [] [] [] []]; reflexivity. Qed.

Lemma lower_idemp s : PyStr.lower (PyStr.lower s) = PyStr.lower s.
Proof.
  induction s as [|c s IH]; simpl; [done|].
  by rewrite lower_char_idemp, IH.
Qed.

Lemma is_empty_lower s : PyStr.is_empty (PyStr.lower s) = PyStr.is_empty s.
Proof. by destruct s. Qed.

Lemma lstrip_lower s :
  PyStr.lstrip_by PyStr.isspace (PyStr.lower s)
  = PyStr.lower (PyStr.lstrip_by PyStr.isspace s).
Proof.
  induction s as [|c s IH]; simpl; [done|].
  rewrite isspace_lower_char. by destruct (PyStr.isspace c).
Qed.

Lemma rstrip_lower s :
  PyStr.rstrip_by PyStr.isspace (PyStr.lower s)
  = PyStr.lower (PyStr.rstrip_by PyStr.isspace s).
Proof.
  induction s as [|c s IH]; simpl; [done|].
  rewrite isspace_lower_char, IH, is_empty_lower.
  by destruct (PyStr.isspace c && PyStr.is_empty _).
Qed.

Lemma strip_lower s :
  PyStr.strip (PyStr.lower s) = PyStr.lower (PyStr.strip s).
Proof. unfold PyStr.strip. by rewrite lstrip_lower, rstrip_lower. Qed.

Lemma rstrip_idemp p s :
  PyStr.rstrip_by p (PyStr.rstrip_by p s) = PyStr.rstrip_by p s.
Proof.
  induction s as [|c s IH]; simpl; [done|].
  destruct (p c && PyStr.is_empty (PyStr.rstrip_by p s)) eqn:Hc; [done|].
  simpl. by rewrite IH, Hc.
Qed.

Lemma lstrip_first p s :
  UrlParse.first_is p (PyStr.lstrip_by p s) = false.
Proof.
  induction s as [|c s IH]; simpl; [done|].
  destruct (p c) eqn:Hc; [done|]. simpl. exact Hc.
Qed.

Lemma rstrip_first p s :
  UrlParse.first_is p s = false →
  UrlParse.first_is p (PyStr.rstrip_by p s) = false.
Proof.
  destruct s as [|c s]; simpl; [done|]. intros Hc. rewrite Hc. simpl.
  exact Hc.
Qed.

Lemma lstrip_fixed p s :
  UrlParse.first_is p s = false → PyStr.lstrip_by p s = s.
Proof. destruct s as [|c s]; simpl; [done|]. by intros ->. Qed.

Lemma strip_idemp s : PyStr.strip (PyStr.strip s) = PyStr.strip s.
Proof.
  unfold PyStr.strip.
  rewrite (lstrip_fixed _ (PyStr.rstrip_by _ _)).
  - apply rstrip_idemp.
  - apply rstrip_first, lstrip_first.
Qed.

Lemma normal_form_idemp url : normal_form (normal_form url) = normal_form url.
Proof.
  unfold normal_form. by rewrite strip_lower, lower_idemp, strip_idemp.
Qed.

(** X7: the verdict of the validator (an exception included) depends on
    the trimmed, lowercased form of its argument only: it is the same
    for that form as for the argument, and so the same for two
    arguments that differ in case or in surrounding whitespace. *)
Theorem is_valid_url_normal_form :
  (∀ url, is_valid_url (normal_form url) = is_valid_url url)
  ∧ ∀ a b, normal_form a = normal_form b → is_valid_url a = is_valid_url b.
Proof.
  assert (∀ url, is_valid_url (normal_form url) = is_valid_url url) as Hn.
  { intros url. destruct url as [|c url]; [done|].
    unfold is_valid_url at 1.
    destruct (PyStr.is_empty (normal_form (String c url))) eqn:He.
    - unfold is_valid_url. cbn [PyStr.is_empty].
      fold (normal_form (String c url)).
      by destruct (normal_form (String c url)).
    - fold (normal_form (normal_form (String c url))).
      by rewrite normal_form_idemp. }
  split; [exact Hn|]. intros a b Hab. by rewrite <- (Hn a), <- (Hn b), Hab.
Qed.

Lemma urlsplit_scheme url parsed :
  UrlParse.urlsplit url = Ok parsed →
  UrlParse.scheme parsed
  = (UrlParse.split_scheme
       (PyStr.remove_chars UrlParse.is_unsafe
          (PyStr.lstrip_by UrlParse.is_c0_or_space url))).1.
Proof.
  unfold UrlParse.urlsplit.
  destruct (UrlParse.split_scheme _) as [sch rest].
  destruct (PyStr.startswith rest "//"); [|by intros [= <-]].
  destruct (xorb _ _); [done|]. by intros [= <-].
Qed.

Lemma startswith_cons s a pre :
  PyStr.startswith s (String a pre) = true →
  ∃ r, s = String a r ∧ PyStr.startswith r pre = true.
Proof.
  destruct s as [|b s]; simpl; [done|].
  destruct (decide (a = b)) as [->|]; [|done]. by exists s.
Qed.

(** Text with one of the four prefixes has none of the two schemes. *)
Lemma bad_prefix_scheme s parsed :
  existsb (PyStr.startswith s) bad_prefixes = true →
  UrlParse.urlparse s = Ok parsed →
  UrlParse.scheme parsed ≠ "http" ∧ UrlParse.scheme parsed ≠ "https".
Proof.
  intros Hbad Hparse. unfold UrlParse.urlparse in Hparse.
  rewrite (urlsplit_scheme _ _ Hparse). clear Hparse.
  unfold bad_prefixes in Hbad. cbn [existsb] in Hbad.
  repeat (apply orb_prop in Hbad as [Hbad|Hbad]); [| | | |done];
    repeat (apply startswith_cons in Hbad as (? & -> & Hbad)).
  1-3: vm_compute; split; discriminate.
  cbn [PyStr.lstrip_by PyStr.remove_chars].
  change (UrlParse.is_c0_or_space "#") with false.
  change (UrlParse.is_unsafe "#") with false. cbv iota.
  unfold UrlParse.split_scheme. cbn [UrlParse.first_is].
  change (UrlParse.is_ascii_alpha "#") with false.
  rewrite andb_false_r. simpl. split; discriminate.
Qed.

Lemma is_valid_url_accepted url :
  is_valid_url url = Ok true →
  ∃ parsed,
    UrlParse.urlparse (normal_form url) = Ok parsed
    ∧ (UrlParse.scheme parsed = "http" ∨ UrlParse.scheme parsed = "https").
Proof.
  unfold is_valid_url. fold (normal_form url).
  destruct (PyStr.is_empty url); [done|].
  destruct (existsb _ _); [done|].
  destruct (UrlParse.urlparse (normal_form url)) as [parsed|e]; [|done].
  simpl. intros [= H]. exists parsed. split; [done|].
  by apply bool_decide_eq_true_1 in H.
Qed.

(** X8: the validator answers [True] exactly when [urlparse] reads the
    scheme [http] or [https] off the trimmed, lowercased text; the test
    for emptiness and the four prefixes never turn down a URL that this
    test would let through. *)
Theorem is_valid_url_accepts_exactly url :
  is_valid_url url = Ok true
  ↔ ∃ parsed,
      UrlParse.urlparse (normal_form url) = Ok parsed
      ∧ (UrlParse.scheme parsed = "http" ∨ UrlParse.scheme parsed = "https").
Proof.
  split; [apply is_valid_url_accepted|].
  unfold is_valid_url. fold (normal_form url).
  - intros (parsed & Hparse & Hsch).
    destruct url as [|c url].
    { vm_compute in Hparse. injection Hparse as <-.
      destruct Hsch as [Hsch|Hsch]; discriminate Hsch. }
    cbn [PyStr.is_empty].
    destruct (existsb _ _) eqn:Hbad.
    { destruct (bad_prefix_scheme _ _ Hbad Hparse) as [H1 H2].
      by destruct Hsch. }
    rewrite Hparse. simpl. f_equal. by apply bool_decide_eq_true_2.
Qed.

Lemma contains_take_until c p s :
  PyStr.contains c (PyStr.take_until p s) = true → PyStr.contains c s = true.
Proof.
  induction s as [|b s IH]; simpl; [done|].
  destruct (p b); [done|]. simpl. destruct (decide (c = b)); auto.
Qed.

Lemma contains_drop c n : ∀ s,
  PyStr.contains c (PyStr.drop n s) = true → PyStr.contains c s = true.
Proof.
  induction n as [|n IH]; intros [|b s]; simpl; try done.
  intros H%IH. by destruct (decide (c = b)).
Qed.

Lemma contains_remove_chars c p s :
  PyStr.contains c (PyStr.remove_chars p s) = true →
  PyStr.contains c s = true.
Proof.
  induction s as [|b s IH]; simpl; [done|].
  destruct (p b); simpl; destruct (decide (c = b)); auto.
Qed.

Lemma contains_lstrip_by c p s :
  PyStr.contains c (PyStr.lstrip_by p s) = true → PyStr.contains c s = true.
Proof.
  induction s as [|b s IH]; simpl; [done|].
  destruct (p b); simpl; destruct (decide (c = b)); auto.
Qed.

Lemma contains_rstrip_by c p s :
  PyStr.contains c (PyStr.rstrip_by p s) = true → PyStr.contains c s = true.
Proof.
  induction s as [|b s IH]; simpl; [done|].
  destruct (p b && PyStr.is_empty _); simpl; [done|].
  destruct (decide (c = b)); auto.
Qed.

Lemma contains_lower c s :
  (∀ x, PyStr.lower_char x = c → x = c) →
  PyStr.contains c (PyStr.lower s) = true → PyStr.contains c s = true.
Proof.
  intros Hc. induction s as [|b s IH]; simpl; [done|].
  destruct (decide (c = PyStr.lower_char b)) as [Heq|_].
  - intros _. symmetry in Heq. apply Hc in Heq as ->.
    by destruct (decide (c = c)).
  - intros H%IH. by destruct (decide (c = b)).
Qed.

Lemma contains_normal_form c url :
  (∀ x, PyStr.lower_char x = c → x = c) →
  PyStr.contains c (normal_form url) = true → PyStr.contains c url = true.
Proof.
  intros Hc H. unfold normal_form, PyStr.strip in H.
  by apply contains_lower, contains_rstrip_by, contains_lstrip_by in H.
Qed.

(** The brackets and the colon are not the lowercase form of any other
    character. *)
Lemma lower_char_only c x :
  c = "["%char ∨ c = "]"%char ∨ c = ":"%char →
  PyStr.lower_char x = c → x = c.
Proof.
  intros [->|[->| ->]]; destruct x as [[] [] [] [] [] [] [] []];
    vm_compute; intros H; try discriminate H; reflexivity.
Qed.

Lemma contains_split_scheme_rest c url :
  PyStr.contains c (UrlParse.split_scheme url).2 = true →
  PyStr.contains c url = true.
Proof.
  unfold UrlParse.split_scheme.
  destruct (_ && _ && _); simpl; [apply contains_drop | done].
Qed.

(** [urlsplit] raises [ValueError] only, and only on text with a
    bracket. *)
Lemma urlsplit_raises url e :
  UrlParse.urlsplit url = Raise e →
  e = ValueError
  ∧ (PyStr.contains "[" url = true ∨ PyStr.contains "]" url = true).
Proof.
  unfold UrlParse.urlsplit.
  pose proof (contains_split_scheme_rest "["
    (PyStr.remove_chars UrlParse.is_unsafe
       (PyStr.lstrip_by UrlParse.is_c0_or_space url))) as Hl.
  pose proof (contains_split_scheme_rest "]"
    (PyStr.remove_chars UrlParse.is_unsafe
       (PyStr.lstrip_by UrlParse.is_c0_or_space url))) as Hr.
  destruct (UrlParse.split_scheme _) as [sch rest]. cbn [snd] in Hl, Hr.
  destruct (PyStr.startswith rest "//"); [|done].
  destruct (PyStr.contains "[" (PyStr.take_until _ _)) eqn:H1;
    destruct (PyStr.contains "]" (PyStr.take_until _ _)) eqn:H2;
    simpl; try done; intros [= <-]; (split; [done|]).
  - left. by apply contains_take_until, contains_drop, Hl,
      contains_remove_chars, contains_lstrip_by in H1.
  - right. by apply contains_take_until, contains_drop, Hr,
      contains_remove_chars, contains_lstrip_by in H2.
Qed.

(** With [urlparse] as modelled here, the validator raises only on an
    argument with a square bracket. *)
Lemma is_valid_url_raise_has_bracket url e :
  is_valid_url url = Raise e →
  e = ValueError
  ∧ (PyStr.contains "[" url = true ∨ PyStr.contains "]" url = true).
Proof.
  unfold is_valid_url. fold (normal_form url).
  destruct (PyStr.is_empty url); [done|].
  destruct (existsb _ _); [done|].
  destruct (UrlParse.urlparse (normal_form url)) as [parsed|e'] eqn:Hparse;
    [done|].
  simpl. intros [= <-].
  apply urlsplit_raises in Hparse as [-> [H|H]]; (split; [done|]).
  - left. apply contains_normal_form in H; [done|].
    intros x. apply lower_char_only. auto.
  - right. apply contains_normal_form in H; [done|].
    intros x. apply lower_char_only. auto.
Qed.

Lemma find_contains c s :
  0 ≤ PyStr.find c s → PyStr.contains c s = true.
Proof.
  induction s as [|b s IH]; simpl; [lia|].
  destruct (decide (c = b)); [done|].
  destruct (Z.ltb_spec (PyStr.find c s) 0); [lia|]. intros _. apply IH. lia.
Qed.

Lemma split_scheme_colon url :
  (UrlParse.split_scheme url).1 ≠ EmptyString →
  PyStr.contains ":" url = true.
Proof.
  unfold UrlParse.split_scheme.
  destruct (Z.ltb_spec 0 (PyStr.find ":" url)) as [Hpos|]; simpl; [|done].
  intros _. apply find_contains. lia.
Qed.

(** X9: on ASCII text without a square bracket the validator does
    not raise: it answers [True] or [False].  (The two conditions mark
    the text on which [urlparse] has nothing to raise: its checks are
    about brackets in the network location and about network locations
    with characters outside ASCII.) *)
Theorem is_valid_url_returns_on_plain_ascii url :
  PyStr.forallb is_ascii url = true →
  PyStr.contains "[" url = false →
  PyStr.contains "]" url = false →
  ∃ b, is_valid_url url = Ok b.
Proof.
  intros _ Hl Hr. destruct (is_valid_url url) as [b|e] eqn:Hrun;
    [by exists b|].
  apply is_valid_url_raise_has_bracket in Hrun as [_ [H|H]]; congruence.
Qed.

(** X10: text without a colon, a relative link for one, is never
    accepted. *)
Theorem is_valid_url_needs_colon url :
  PyStr.contains ":" url = false → is_valid_url url ≠ Ok true.
Proof.
  intros Hno (parsed & Hparse & Hsch)%is_valid_url_accepted.
  unfold UrlParse.urlparse in Hparse.
  pose proof (urlsplit_scheme _ _ Hparse) as Hs.
  assert (PyStr.contains ":" url = true) as Hyes; [|congruence].
  apply (contains_normal_form ":");
    [intros x; apply lower_char_only; auto|].
  eapply contains_lstrip_by, contains_remove_chars, split_scheme_colon.
  rewrite <- Hs. destruct Hsch as [-> | ->]; discriminate.
Qed.

Lemma is_valid_url_returns_on_plain_ascii_witness :
  ∃ b, is_valid_url "  HTTP://Example.com/a?b=1#top " = Ok b.
Proof. apply is_valid_url_returns_on_plain_ascii; reflexivity. Defined.

Lemma is_valid_url_needs_colon_witness :
  PyStr.contains ":" "//example.com/a" = false
  ∧ is_valid_url "//example.com/a" ≠ Ok true.
Proof.
  split; [reflexivity|]. apply is_valid_url_needs_colon. reflexivity.
Defined.

(** * Further properties of the retrying fetch *)

Lemma saves_app tr1 tr2 : saves (tr1 ++ tr2) = saves tr1 ++ saves tr2.
Proof. apply omap_app. Qed.

Lemma skips_app tr1 tr2 : skips (tr1 ++ tr2) = skips tr1 ++ skips tr2.
Proof. apply omap_app. Qed.

Lemma gets_app tr1 tr2 : gets (tr1 ++ tr2) = gets tr1 ++ gets tr2.
Proof. apply omap_app. Qed.

Lemma timeouts_app tr1 tr2 :
  timeouts (tr1 ++ tr2) = timeouts tr1 ++ timeouts tr2.
Proof. apply omap_app. Qed.

Lemma reports_app tr1 tr2 : reports (tr1 ++ tr2) = reports tr1 ++ reports tr2.
Proof. apply List.filter_app. Qed.

Lemma count_gets_length tr : count_gets tr = length (gets tr).
Proof.
  unfold count_gets, gets.
  induction tr as [|e tr IH]; [done|]. destruct e; simpl; by rewrite ?IH.
Qed.

Lemma fmap_EvAppend_quiet urls :
  saves (EvAppend <$> urls) = [] ∧ skips (EvAppend <$> urls) = []
  ∧ gets (EvAppend <$> urls) = [] ∧ timeouts (EvAppend <$> urls) = []
  ∧ reports (EvAppend <$> urls) = [].
Proof. induction urls as [|u urls IH]; simpl; done. Qed.

(** What the events of a fetch leave in each reading of a trace. *)
Lemma fetch_events_quiet url timeout tr :
  Forall (fetch_event url timeout) tr →
  saves tr = [] ∧ skips tr = [] ∧ reports tr = []
  ∧ Forall (eq url) (gets tr) ∧ Forall (eq timeout) (timeouts tr).
Proof.
  induction 1 as [|e tr He _ (Hs & Hk & Hr & Hg & Ht)]; [done|].
  destruct e; simpl in He; try done; simpl.
  destruct He as [-> ->]. repeat split; try done; by constructor.
Qed.

Lemma seqZ_snoc_nat m (n : nat) :
  seqZ m (Z.of_nat (S n)) = seqZ m (Z.of_nat n) ++ [m + Z.of_nat n].
Proof.
  replace (Z.of_nat (S n)) with (Z.of_nat n + 1) by lia.
  rewrite seqZ_app by lia. f_equal.
Qed.

Lemma Forall_eq_elem_of {A} (x y : A) (l : list A) :
  Forall (eq x) l → y ∈ l → y = x.
Proof. intros Hall Hin. by apply (proj1 (Forall_forall _ _) Hall) in Hin. Qed.

Lemma count_gets_elem_of u tr :
  Forall (eq u) (gets tr) → (1 ≤ count_gets tr)%nat → u ∈ gets tr.
Proof.
  rewrite count_gets_length. destruct (gets tr) as [|x l]; simpl; [lia|].
  intros [<- _]%Forall_cons _. apply list_elem_of_here.
Qed.

Section FetchEvents.

Context {World : Type}.
Variable requests_get : string → Z → World → get_outcome * World.

Abbreviation fetch_with_retry := (fetch_with_retry requests_get).

Lemma fetch_attempts_events url retries timeout attempts : ∀ w,
  Forall (fetch_event url timeout)
    (fetch_attempts requests_get url retries timeout attempts w).2.
Proof.
  induction attempts as [|a attempts IH]; intros w; simpl; [done|].
  destruct (try_get requests_get url timeout w) as [[r|] w1].
  - by repeat constructor.
  - destruct (a =? retries); [by repeat constructor|].
    specialize (IH w1).
    destruct (fetch_attempts requests_get url retries timeout attempts w1)
      as [[res w2] tr].
    by repeat constructor.
Qed.

(** The requests of a call: at least one and at most [retries] when it
    returns a response, all [retries] of them when it returns [None]. *)
Lemma fetch_with_retry_count url retries timeout w :
  match (fetch_with_retry url retries timeout w).1.1 with
  | Some r =>
      response_ok r = true
      ∧ (1 ≤ count_gets (fetch_with_retry url retries timeout w).2
           ≤ Z.to_nat retries)%nat
  | None =>
      count_gets (fetch_with_retry url retries timeout w).2
      = Z.to_nat retries
  end.
Proof.
  pose proof (fetch_attempts_ok requests_get url retries timeout
                (seqZ 1 retries) w) as Hok.
  fold (fetch_with_retry url retries timeout w) in Hok.
  destruct (fetch_with_retry_cases requests_get url retries timeout w)
    as [[Hle Hrun]|[(k & w1 & r & w2 & Hk & _ & _ & Hrun)|(w1 & Hr & _ & Hrun)]];
    rewrite Hrun in *; simpl.
  - unfold count_gets. simpl. lia.
  - split; [by apply Hok|].
    rewrite count_gets_app, count_gets_failed_rounds.
    unfold count_gets. simpl. lia.
  - rewrite count_gets_app, count_gets_failed_rounds.
    unfold count_gets. simpl. lia.
Qed.

(** X11: a response that [fetch_with_retry] returns never has a 4xx or
    5xx status; [None] is returned only after all [retries] requests
    were made (after none when [retries] is not positive); and every
    event of the call is a request for [url] with [timeout], a
    diagnostic for [url], or a pause of one second. *)
Theorem fetch_with_retry_result url retries timeout w :
  match (fetch_with_retry url retries timeout w).1.1 with
  | Some r =>
      raises_for_status r = false
      ∧ (1 ≤ count_gets (fetch_with_retry url retries timeout w).2
           ≤ Z.to_nat retries)%nat
  | None =>
      count_gets (fetch_with_retry url retries timeout w).2
      = Z.to_nat retries
  end
  ∧ Forall (fetch_event url timeout)
      (fetch_with_retry url retries timeout w).2.
Proof.
  split; [|apply fetch_attempts_events].
  pose proof (fetch_with_retry_count url retries timeout w) as H.
  destruct (fetch_with_retry url retries timeout w) as [[[r|] w1] tr];
    cbn [fst snd] in *; [|done].
  destruct H as [Hok Hc]. split; [|done].
  unfold response_ok in Hok. by apply negb_true_iff in Hok.
Qed.

End FetchEvents.

(** * Further properties of the crawl *)

Section LinkLoop.

Variable urljoin : string → string → result string.

Abbreviation link_loop := (link_loop urljoin).

(** X12: when the link loop of a page ends without an exception, it
    has enqueued exactly the eligible ones among the joined links, in
    document order and as often as they occur: no eligible link is
    dropped and none is enqueued only once for being repeated. *)
Theorem eligible_links_all_enqueued seed_domain current_url hrefs added :
  link_loop seed_domain current_url hrefs = (added, None) →
  ∃ joined,
    Forall2 (fun raw_link full_url =>
               urljoin current_url raw_link = Ok full_url) hrefs joined
    ∧ added = filter (eligible seed_domain) joined.
Proof.
  revert added. induction hrefs as [|raw_link hrefs IH]; intros added; simpl.
  { intros [= <-]. by exists []. }
  destruct (urljoin current_url raw_link) as [full_url|e] eqn:Hjoin; [|done].
  destruct (is_valid_url full_url) as [[|]|e] eqn:Hvalid; [| |done].
  - destruct (UrlParse.urlparse full_url) as [parsed|e] eqn:Hparse; [|done].
    destruct (decide (UrlParse.netloc parsed ≠ seed_domain)) as [Hne|Heq].
    + intros (joined & Hj & ->)%IH. exists (full_url :: joined).
      split; [by constructor|]. rewrite filter_cons.
      destruct (decide (eligible seed_domain full_url))
        as [[_ (p & Hp & Hnl)]|_]; [|done].
      rewrite Hparse in Hp. injection Hp as <-. done.
    + destruct (link_loop seed_domain current_url hrefs) as [added' err].
      intros [= <- ->]. destruct (IH added' eq_refl) as (joined & Hj & ->).
      exists (full_url :: joined). split; [by constructor|].
      rewrite filter_cons, decide_True; [done|].
      split; [done|]. exists parsed. split; [done|].
      by destruct (decide (UrlParse.netloc parsed = seed_domain)).
  - intros (joined & Hj & ->)%IH. exists (full_url :: joined).
    split; [by constructor|]. rewrite filter_cons.
    destruct (decide (eligible seed_domain full_url)) as [[Hv _]|_]; [|done].
    congruence.
Qed.

End LinkLoop.

Lemma eligible_links_all_enqueued_witness :
  ∃ joined,
    Forall2 (fun raw_link full_url =>
               join_absolute "http://site.test/" raw_link = Ok full_url)
      ["http://site.test/a"; "mailto:x@y.com"; "http://other.test/";
       "http://site.test/a"] joined
    ∧ ["http://site.test/a"; "http://site.test/a"]
      = filter (eligible "site.test") joined.
Proof.
  apply (eligible_links_all_enqueued join_absolute "site.test"
           "http://site.test/").
  reflexivity.
Defined.
Section CrawlAccounts.

Context {World : Type}.
Variable requests_get : string → Z → World → get_outcome * World.
Variable find_all_href : string → list string.
Variable urljoin : string → string → result string.

Abbreviation fetch_with_retry := (fetch_with_retry requests_get).
Abbreviation link_loop := (link_loop urljoin).
Abbreviation loop_body := (loop_body requests_get find_all_href urljoin).
Abbreviation crawl_loop := (crawl_loop requests_get find_all_href urljoin).
Abbreviation crawl := (crawl requests_get find_all_href urljoin).
Abbreviation run := (run requests_get find_all_href urljoin).

(** The four ways one execution of the loop body can go: a duplicate, a
    URL given up, a page visited, and a page saved whose links raise. *)
Lemma loop_body_outcome seed_domain st w u rest r w1 tr :
  queue st = u :: rest →
  loop_body seed_domain st w = (r, w1, tr) →
  reports tr = []
  ∧ Forall (eq u) (gets tr) ∧ Forall (eq 8) (timeouts tr)
  ∧ ((u ∈ visited st
      ∧ r = Ok (mkState rest (visited st) (duplicate_urls st + 1)
                  (page_id st))
      ∧ tr = [EvPop u])
     ∨ ((u ∉ visited st)
        ∧ r = Ok (mkState rest (visited st) (duplicate_urls st) (page_id st))
        ∧ saves tr = [] ∧ skips tr = [u] ∧ count_gets tr = 3%nat)
     ∨ ((u ∉ visited st)
        ∧ (∃ added,
             r = Ok (mkState (rest ++ added) ({[u]} ∪ visited st)
                       (duplicate_urls st) (page_id st + 1)))
        ∧ saves tr = [page_id st] ∧ skips tr = []
        ∧ (1 ≤ count_gets tr ≤ 3)%nat)
     ∨ ((u ∉ visited st)
        ∧ (∃ e, r = Raise e)
        ∧ saves tr = [page_id st] ∧ skips tr = []
        ∧ (1 ≤ count_gets tr ≤ 3)%nat
        ∧ ∃ tr0 content added,
            tr = tr0 ++ EvSave (page_id st) content :: (EvAppend <$> added))).
Proof.
  intros Hq. unfold Crawler.loop_body. rewrite Hq.
  destruct (decide (u ∈ visited st)) as [Hin|Hnin].
  { intros [= <- <- <-]. repeat split; [done..|]. by left. }
  pose proof (fetch_attempts_events requests_get u 3 8 (seqZ 1 3) w) as Hev.
  pose proof (fetch_with_retry_count requests_get u 3 8 w) as Hcount.
  fold (fetch_with_retry u 3 8 w) in Hev.
  destruct (fetch_with_retry u 3 8 w) as [[response w2] ftr].
  cbn [fst snd] in Hev, Hcount.
  apply fetch_events_quiet in Hev as (Hs & Hk & Hr & Hg & Ht).
  assert (∀ r' w' tr',
    (Ok (mkState rest (visited st) (duplicate_urls st) (page_id st)), w2,
     EvPop u :: ftr ++ [EvSkipping u]) = (r', w', tr') →
    count_gets ftr = 3%nat →
    reports tr' = []
    ∧ Forall (eq u) (gets tr') ∧ Forall (eq 8) (timeouts tr')
    ∧ ((u ∉ visited st)
       ∧ r' = Ok (mkState rest (visited st) (duplicate_urls st) (page_id st))
       ∧ saves tr' = [] ∧ skips tr' = [u] ∧ count_gets tr' = 3%nat)) as Hskip.
  { intros r' w' tr' [= <- <- <-] H3.
    change (EvPop u :: ftr ++ [EvSkipping u])
      with ([EvPop u] ++ ftr ++ [EvSkipping u]).
    rewrite !reports_app, !gets_app, !timeouts_app, !saves_app, !skips_app,
      !count_gets_app, Hs, Hk, Hr, H3. simpl. rewrite !app_nil_r.
    repeat split; try done; unfold count_gets; simpl; lia. }
  destruct response as [resp|].
  2:{ intros Heq. destruct (Hskip _ _ _ Heq Hcount) as (? & ? & ? & ?).
      repeat split; [done..|]. right. by left. }
  destruct Hcount as [Hok Hcount]. rewrite Hok.
  destruct (link_loop seed_domain u (find_all_href (text resp)))
    as [added err].
  destruct (fmap_EvAppend_quiet added) as (Has & Hak & Hag & Hat & Har).
  assert (∀ tail,
    saves tail = [] → skips tail = [] → gets tail = [] → timeouts tail = [] →
    reports tail = [] → count_gets tail = 0%nat →
    let tr' := EvPop u :: (ftr ++ EvSave (page_id st) (text resp)
                             :: (EvAppend <$> added)) ++ tail in
    reports tr' = [] ∧ Forall (eq u) (gets tr') ∧ Forall (eq 8) (timeouts tr')
    ∧ saves tr' = [page_id st] ∧ skips tr' = []
    ∧ (1 ≤ count_gets tr' ≤ 3)%nat) as Hvisit.
  { intros tail Hts Htk Htg Htt Htr Htc tr'. subst tr'.
    change (EvPop u :: (ftr ++ EvSave (page_id st) (text resp)
                          :: (EvAppend <$> added)) ++ tail)
      with ([EvPop u] ++ (ftr ++ [EvSave (page_id st) (text resp)]
                            ++ (EvAppend <$> added)) ++ tail).
    rewrite !reports_app, !gets_app, !timeouts_app, !saves_app, !skips_app,
      !count_gets_app, Hs, Hk, Hr, Has, Hak, Hag, Hat, Har,
      Hts, Htk, Htg, Htt, Htr, Htc.
    rewrite (count_gets_length (EvAppend <$> added)), Hag.
    simpl. rewrite !app_nil_r.
    repeat split; try done; lia. }
  destruct err as [e|]; intros [= <- <- <-].
  - destruct (Hvisit [] eq_refl eq_refl eq_refl eq_refl eq_refl eq_refl)
      as (? & ? & ? & ? & ? & ?).
    rewrite app_nil_r in *.
    repeat split; [done..|]. right. right. right.
    repeat split; try done; [by eexists | lia | lia |].
    exists (EvPop u :: ftr), (text resp), added. by rewrite <- app_comm_cons.
  - destruct (Hvisit [EvSleep (1 # 2)]
                eq_refl eq_refl eq_refl eq_refl eq_refl eq_refl)
      as (? & ? & ? & ? & ? & ?).
    repeat split; [done..|]. right. right. left.
    repeat split; try done; [by eexists | lia | lia].
Qed.

End CrawlAccounts.

Section CrawlInvariants.

Context {World : Type}.
Variable requests_get : string → Z → World → get_outcome * World.
Variable find_all_href : string → list string.
Variable urljoin : string → string → result string.

Abbreviation loop_body := (loop_body requests_get find_all_href urljoin).
Abbreviation crawl_loop := (crawl_loop requests_get find_all_href urljoin).
Abbreviation crawl := (crawl requests_get find_all_href urljoin).
Abbreviation run := (run requests_get find_all_href urljoin).

(** The books a run keeps: page numbers, counters and requests. *)
Lemma run_accounts seed_domain MAX_PAGES st0 w0 tr st w :
  run seed_domain MAX_PAGES st0 w0 tr st w →
  reports tr = []
  ∧ Forall (eq 8) (timeouts tr)
  ∧ saves tr = seqZ (page_id st0) (Z.of_nat (length (saves tr)))
  ∧ page_id st = page_id st0 + Z.of_nat (length (saves tr))
  ∧ size (visited st) = (size (visited st0) + length (saves tr))%nat
  ∧ duplicate_urls st0 ≤ duplicate_urls st
  ∧ Z.of_nat (length (pops tr))
    = Z.of_nat (length (saves tr))
      + (duplicate_urls st - duplicate_urls st0)
      + Z.of_nat (length (skips tr))
  ∧ (3 * length (skips tr) + length (saves tr) ≤ count_gets tr
     ≤ 3 * (length (skips tr) + length (saves tr)))%nat.
Proof.
  induction 1 as [|tr st w st1 w1 tr1 Hrun IH Hcond Hbody].
  { simpl. rewrite seqZ_nil by done. unfold count_gets. simpl.
    repeat split; try done; lia. }
  destruct IH as (Hr & Ht & Hs & Hp & Hv & Hd & Hpops & Hg).
  apply loop_cond_queue in Hcond as [(u & rest & Hq) _].
  destruct (loop_body_inv _ _ _ _ _ _ _ _ _ _ _ Hq Hbody) as (Hpop1 & _ & _).
  destruct (loop_body_outcome _ _ _ _ _ _ _ _ _ _ _ Hq Hbody)
    as (Hr1 & _ & Ht1 & Hcase).
  rewrite reports_app, timeouts_app, saves_app, pops_app, skips_app,
    count_gets_app, !length_app, Hr, Hr1, Hpop1.
  split; [done|]. split; [by apply Forall_app|].
  destruct Hcase as [(Hin & [= ->] & ->)
    |[(Hnin & [= ->] & Hs1 & Hk1 & Hg1)
    |[(Hnin & [added [= ->]] & Hs1 & Hk1 & Hg1)
    |(_ & [e [=]] & _)]]]; cbn [queue visited duplicate_urls page_id].
  - change (count_gets [EvPop u]) with 0%nat.
    change (saves [EvPop u]) with (@nil Z).
    change (skips [EvPop u]) with (@nil string).
    rewrite !app_nil_r. cbn [length]. rewrite ?Nat.add_0_r.
    repeat split; try done; lia.
  - rewrite Hs1, Hk1, Hg1, !app_nil_r. cbn [length]. rewrite ?Nat.add_0_r.
    repeat split; try done; lia.
  - rewrite Hs1, Hk1. cbn [length]. rewrite ?Nat.add_0_r.
    replace (length (saves tr) + 1)%nat with (S (length (saves tr))) by lia.
    rewrite seqZ_snoc_nat, <- Hs, Hp.
    rewrite size_union by (apply disjoint_singleton_l; exact Hnin).
    rewrite size_singleton.
    repeat split; try done; lia.
Qed.

End CrawlInvariants.

Section CrawlRequests.

Context {World : Type}.
Variable requests_get : string → Z → World → get_outcome * World.
Variable find_all_href : string → list string.
Variable urljoin : string → string → result string.

Abbreviation loop_body := (loop_body requests_get find_all_href urljoin).
Abbreviation crawl_loop := (crawl_loop requests_get find_all_href urljoin).
Abbreviation crawl := (crawl requests_get find_all_href urljoin).
Abbreviation run := (run requests_get find_all_href urljoin).

(** The requests of one iteration are for the URL it dequeued, which is
    then not a visited one. *)
Lemma loop_body_requests seed_domain st w u rest r w1 tr x :
  queue st = u :: rest →
  loop_body seed_domain st w = (r, w1, tr) →
  x ∈ gets tr → x = u ∧ u ∉ visited st.
Proof.
  intros Hq Hbody Hx.
  destruct (loop_body_outcome _ _ _ _ _ _ _ _ _ _ _ Hq Hbody)
    as (_ & Hg & _ & Hcase).
  split; [by eapply Forall_eq_elem_of|].
  destruct Hcase as [(_ & _ & ->)|[(? & _)|[(? & _)|(? & _)]]]; try done.
  by apply elem_of_nil in Hx.
Qed.

(** Where the requests and the visited pages of a run come from. *)
Lemma run_requests seed_domain MAX_PAGES st0 w0 tr st w :
  run seed_domain MAX_PAGES st0 w0 tr st w →
  visited st0 ⊆ visited st
  ∧ (∀ u, u ∈ gets tr → u ∈ pops tr ∧ u ∉ visited st0)
  ∧ (∀ u, u ∈ visited st → u ∈ visited st0 ∨ u ∈ gets tr).
Proof.
  induction 1 as [|tr st w st1 w1 tr1 Hrun IH Hcond Hbody].
  { split; [done|]. split; [by intros u ?%elem_of_nil | auto]. }
  destruct IH as (Hsub & Hgets & Hvis).
  apply loop_cond_queue in Hcond as [(u' & rest & Hq) _].
  destruct (loop_body_inv _ _ _ _ _ _ _ _ _ _ _ Hq Hbody) as (Hpop1 & _ & _).
  destruct (loop_body_outcome _ _ _ _ _ _ _ _ _ _ _ Hq Hbody)
    as (_ & Hg1 & _ & Hcase).
  assert (visited st ⊆ visited st1
          ∧ ∀ u, u ∈ visited st1 → u ∈ visited st ∨ u ∈ gets tr1)
    as [Hsub1 Hvis1].
  { destruct Hcase as [(_ & [= ->] & _)
      |[(_ & [= ->] & _)
      |[(_ & [added [= ->]] & _ & _ & Hc)
      |(_ & [e [=]] & _)]]]; cbn [visited]; [auto..|].
    split; [apply union_subseteq_r|].
    intros u [->%elem_of_singleton|Hu]%elem_of_union.
    - right. apply count_gets_elem_of; [done | lia].
    - by left. }
  split; [by transitivity (visited st)|].
  rewrite gets_app, pops_app, Hpop1. split.
  - intros u [Hu|Hu]%elem_of_app.
    + destruct (Hgets u Hu). split; [|done]. apply elem_of_app. by left.
    + destruct (loop_body_requests _ _ _ _ _ _ _ _ _ Hq Hbody Hu) as [-> Hn].
      split; [apply elem_of_app; right; apply list_elem_of_here|].
      intros Hin. apply Hn. by apply Hsub.
  - intros u Hu. destruct (Hvis1 u Hu) as [Hv|Hg].
    + destruct (Hvis u Hv) as [?|?]; [by left|].
      right. apply elem_of_app. by left.
    + right. apply elem_of_app. by right.
Qed.

(** The same for what the fuelled loop returns, whether it ended or
    raised. *)
Lemma crawl_loop_requests fuel seed_domain MAX_PAGES st0 w0 r w' tr :
  crawl_loop fuel seed_domain MAX_PAGES st0 w0 = Some (r, w', tr) →
  (∀ u, u ∈ gets tr → u ∈ pops tr ∧ u ∉ visited st0)
  ∧ ∀ st, r = Ok st →
      visited st0 ⊆ visited st
      ∧ ∀ u, u ∈ visited st → u ∈ visited st0 ∨ u ∈ gets tr.
Proof.
  intros Hloop. apply crawl_loop_run in Hloop. destruct r as [st|e].
  - destruct Hloop as [Hrun _].
    apply run_requests in Hrun as (Hsub & Hgets & Hvis).
    split; [done|]. by intros ? [= <-].
  - destruct Hloop as (tr1 & st1 & w1 & tr2 & Hrun & Hc & Hb & ->).
    apply run_requests in Hrun as (Hsub & Hgets & _).
    split; [|done]. intros u. rewrite gets_app, pops_app.
    apply loop_cond_queue in Hc as [(u1 & rest & Hq1) _].
    destruct (loop_body_inv _ _ _ _ _ _ _ _ _ _ _ Hq1 Hb) as (Hpop1 & _ & _).
    intros [Hu|Hu]%elem_of_app.
    + destruct (Hgets u Hu). split; [|done]. apply elem_of_app. by left.
    + destruct (loop_body_requests _ _ _ _ _ _ _ _ _ Hq1 Hb Hu) as [-> Hn].
      rewrite Hpop1.
      split; [apply elem_of_app; right; apply list_elem_of_here|].
      intros Hin. apply Hn. by apply Hsub.
Qed.

(** A call of [crawl] is its loop between the folder and the reports. *)
Lemma crawl_trace fuel seed_url MAX_PAGES w r w' tr :
  crawl fuel seed_url MAX_PAGES w = Some (r, w', tr) →
  (∃ e, UrlParse.urlparse seed_url = Raise e
        ∧ r = Raise e ∧ tr = [EvMakedirs])
  ∨ ∃ parsed ltr,
      UrlParse.urlparse seed_url = Ok parsed
      ∧ crawl_loop fuel (UrlParse.netloc parsed) MAX_PAGES
          (init_state seed_url) w = Some (r, w', ltr)
      ∧ tr = EvMakedirs :: ltr
               ++ match r with
                  | Ok st =>
                      [EvWriteVisited (elements (visited st));
                       EvSummary (size (visited st)) (size (visited st))
                         (duplicate_urls st)]
                  | Raise _ => []
                  end.
Proof.
  unfold Crawler.crawl.
  destruct (UrlParse.urlparse seed_url) as [parsed|e];
    [|intros [= <- <- <-]; left; by exists e].
  destruct (crawl_loop fuel (UrlParse.netloc parsed) MAX_PAGES
              (init_state seed_url) w) as [[[[st|e] w1] ltr]|] eqn:Hloop;
    [| |done]; intros [= <- <- <-]; right; exists parsed, ltr.
  - done.
  - by rewrite app_nil_r.
Qed.

(** The trace of a crawl read through [gets], [saves], [skips],
    [timeouts] and [count_gets] is the trace of its loop. *)
Lemma crawl_trace_readings ltr (r : result crawl_state) :
  let tr := EvMakedirs :: ltr
              ++ match r with
                 | Ok st =>
                     [EvWriteVisited (elements (visited st));
                      EvSummary (size (visited st)) (size (visited st))
                        (duplicate_urls st)]
                 | Raise _ => []
                 end in
  gets tr = gets ltr ∧ saves tr = saves ltr ∧ skips tr = skips ltr
  ∧ timeouts tr = timeouts ltr ∧ pops tr = pops ltr
  ∧ count_gets tr = count_gets ltr.
Proof.
  intros tr. subst tr.
  change (EvMakedirs :: ltr ++ ?l) with ([EvMakedirs] ++ ltr ++ l).
  rewrite !gets_app, !saves_app, !skips_app, !timeouts_app, !pops_app,
    !count_gets_app.
  destruct r; simpl; rewrite ?app_nil_r; unfold count_gets; simpl;
    repeat split; try done; lia.
Qed.

End CrawlRequests.

Section CrawlBooks.

Context {World : Type}.
Variable requests_get : string → Z → World → get_outcome * World.
Variable find_all_href : string → list string.
Variable urljoin : string → string → result string.

Abbreviation fetch_with_retry := (fetch_with_retry requests_get).
Abbreviation loop_body := (loop_body requests_get find_all_href urljoin).
Abbreviation crawl_loop := (crawl_loop requests_get find_all_href urljoin).
Abbreviation crawl := (crawl requests_get find_all_href urljoin).
Abbreviation run := (run requests_get find_all_href urljoin).

(** The books of the fuelled loop, whether it ended or raised. *)
Lemma crawl_loop_accounts fuel seed_domain MAX_PAGES st0 w0 r w' tr :
  crawl_loop fuel seed_domain MAX_PAGES st0 w0 = Some (r, w', tr) →
  reports tr = []
  ∧ Forall (eq 8) (timeouts tr)
  ∧ saves tr = seqZ (page_id st0) (Z.of_nat (length (saves tr)))
  ∧ (count_gets tr ≤ 3 * length (pops tr))%nat
  ∧ match r with
    | Ok st =>
        page_id st = page_id st0 + Z.of_nat (length (saves tr))
        ∧ size (visited st) = (size (visited st0) + length (saves tr))%nat
        ∧ duplicate_urls st0 ≤ duplicate_urls st
        ∧ Z.of_nat (length (pops tr))
          = Z.of_nat (length (saves tr))
            + (duplicate_urls st - duplicate_urls st0)
            + Z.of_nat (length (skips tr))
        ∧ (3 * length (skips tr) + length (saves tr) ≤ count_gets tr
           ≤ 3 * (length (skips tr) + length (saves tr)))%nat
    | Raise _ =>
        ∃ tr0 id content added,
          tr = tr0 ++ EvSave id content :: (EvAppend <$> added)
    end.
Proof.
  intros Hloop. apply crawl_loop_run in Hloop. destruct r as [st|e].
  - destruct Hloop as [Hrun _].
    apply run_accounts in Hrun as (? & ? & ? & ? & ? & ? & ? & ?).
    repeat split; try done; lia.
  - destruct Hloop as (tr1 & st1 & w1 & tr2 & Hrun & Hc & Hb & ->).
    apply run_accounts in Hrun as (Hr & Ht & Hs & Hp & _ & Hd & Hpops & Hg).
    apply loop_cond_queue in Hc as [(u & rest & Hq) _].
    destruct (loop_body_inv _ _ _ _ _ _ _ _ _ _ _ Hq Hb) as (Hpop1 & _ & _).
    destruct (loop_body_outcome _ _ _ _ _ _ _ _ _ _ _ Hq Hb)
      as (Hr1 & _ & Ht1 & [(_ & [=] & _)|[(_ & [=] & _)|[(_ & [? [=]] & _)
          |(_ & _ & Hs1 & _ & Hg1 & tr0 & content & added & Htr2)]]]).
    rewrite reports_app, timeouts_app, saves_app, pops_app, count_gets_app,
      !length_app, Hr, Hr1, Hpop1, Hs1. cbn [length].
    split; [done|]. split; [by apply Forall_app|]. split; [|split; [lia|]].
    + replace (length (saves tr1) + 1)%nat with (S (length (saves tr1)))
        by lia.
      by rewrite seqZ_snoc_nat, <- Hs, Hp.
    + exists (tr1 ++ tr0), (page_id st1), content, added.
      by rewrite Htr2, app_assoc.
Qed.

(** X13: the page files a crawl writes are numbered 1, 2, 3, ... in
    the order they are written, without a gap or a repetition, also
    when the crawl ends in an exception; a crawl that returns has
    written one file per visited URL and leaves [page_id] one above
    that number. *)
Theorem saved_pages_numbered fuel seed_url MAX_PAGES w r w' tr :
  crawl fuel seed_url MAX_PAGES w = Some (r, w', tr) →
  saves tr = seqZ 1 (Z.of_nat (length (saves tr)))
  ∧ ∀ st, r = Ok st →
      length (saves tr) = size (visited st)
      ∧ page_id st = 1 + Z.of_nat (size (visited st)).
Proof.
  intros [(e & _ & -> & ->)|(parsed & ltr & _ & Hloop & ->)]%crawl_trace;
    [done|].
  destruct (crawl_trace_readings ltr r) as (_ & -> & _).
  apply crawl_loop_accounts in Hloop as (_ & _ & Hs & _ & Hr).
  split; [exact Hs|]. intros st ->.
  destruct Hr as (Hp & Hv & _). cbn [init_state page_id visited] in Hp, Hv.
  rewrite size_empty in Hv. split; lia.
Qed.

(** X14: in a crawl that returns, every URL taken from the queue was
    counted once: as a page visited, as a duplicate, or as a URL given
    up; the duplicate counter of the summary is never negative. *)
Theorem dequeue_accounting fuel seed_url MAX_PAGES w st w' tr :
  crawl fuel seed_url MAX_PAGES w = Some (Ok st, w', tr) →
  0 ≤ duplicate_urls st
  ∧ Z.of_nat (length (pops tr))
    = Z.of_nat (size (visited st)) + duplicate_urls st
      + Z.of_nat (length (skips tr)).
Proof.
  intros [(e & _ & [=] & _)|(parsed & ltr & _ & Hloop & ->)]%crawl_trace.
  destruct (crawl_trace_readings ltr (Ok st)) as (_ & _ & -> & _ & -> & _).
  apply crawl_loop_accounts in Hloop as (_ & _ & _ & _ & _ & Hv & Hd & Hp & _).
  cbn [init_state duplicate_urls visited] in Hv, Hd, Hp.
  rewrite size_empty in Hv. split; lia.
Qed.


(** X16: a crawl that returns has stopped for one of two reasons: the
    queue is empty, or the number of visited pages has reached
    [MAX_PAGES] (zero when [MAX_PAGES] is negative). *)
Theorem crawl_stop_condition fuel seed_url MAX_PAGES w st w' tr :
  crawl fuel seed_url MAX_PAGES w = Some (Ok st, w', tr) →
  queue st = [] ∨ Z.of_nat (size (visited st)) = Z.max 0 MAX_PAGES.
Proof.
  intros [(e & _ & [=] & _)|(parsed & ltr & _ & Hloop & _)]%crawl_trace.
  apply crawl_loop_run in Hloop as [Hrun Hend].
  apply run_visited_bound in Hrun.
  2:{ cbn [init_state visited]. rewrite size_empty. lia. }
  unfold loop_cond in Hend. apply andb_false_iff in Hend as [Hq|Hlt].
  - left. apply negb_false_iff in Hq. by apply bool_decide_eq_true_1 in Hq.
  - right. apply Z.ltb_ge in Hlt. lia.
Qed.

(** X17: a crawl that returns ends with its two reports, written once
    and last, and [visited.txt] lists every visited URL once; a crawl
    that raises writes neither report: either the seed did not parse
    and nothing but the folder was made, or the exception came from a
    link of a page that had just been saved, after the links before it
    were appended. *)
Theorem crawl_aborts_on_exception fuel seed_url MAX_PAGES w r w' tr :
  crawl fuel seed_url MAX_PAGES w = Some (r, w', tr) →
  match r with
  | Ok st =>
      ∃ ltr urls,
        tr = EvMakedirs :: ltr
               ++ [EvWriteVisited urls;
                   EvSummary (size (visited st)) (size (visited st))
                     (duplicate_urls st)]
        ∧ reports ltr = []
        ∧ NoDup urls ∧ ∀ u, u ∈ urls ↔ u ∈ visited st
  | Raise e =>
      reports tr = []
      ∧ ((UrlParse.urlparse seed_url = Raise e ∧ tr = [EvMakedirs])
         ∨ ∃ tr0 id content added,
             tr = tr0 ++ EvSave id content :: (EvAppend <$> added))
  end.
Proof.
  intros [(e & Hseed & -> & ->)|(parsed & ltr & _ & Hloop & ->)]%crawl_trace.
  { split; [done|]. by left. }
  apply crawl_loop_accounts in Hloop as (Hr & _ & _ & _ & Hcase).
  destruct r as [st|e].
  - exists ltr, (elements (visited st)). split; [done|]. split; [done|].
    split; [apply NoDup_elements|]. intros u. apply elem_of_elements.
  - rewrite app_nil_r.
    change (EvMakedirs :: ltr) with ([EvMakedirs] ++ ltr).
    rewrite reports_app, Hr. split; [done|]. right.
    destruct Hcase as (tr0 & id & content & added & ->).
    by exists (EvMakedirs :: tr0), id, content, added.
Qed.

(** X18: a seed that cannot be fetched, with [MAX_PAGES] positive.
    When [urlparse] accepts the seed, the crawl gives it up after the
    three attempts and returns with an empty queue, nothing visited, an
    empty [visited.txt] and a summary of zero pages and zero
    duplicates.  When [urlparse] raises on the seed, the crawl raises
    that exception once the folder is made, without a request and
    without the two reports. *)
Theorem unreachable_seed fuel seed_url MAX_PAGES w w1 ftr :
  0 < MAX_PAGES →
  fetch_with_retry seed_url 3 8 w = (None, w1, ftr) →
  match UrlParse.urlparse seed_url with
  | Ok _ =>
      crawl (S (S fuel)) seed_url MAX_PAGES w
      = Some (Ok (mkState [] ∅ 0 1), w1,
              EvMakedirs :: EvPop seed_url :: ftr
                ++ [EvSkipping seed_url; EvWriteVisited [];
                    EvSummary 0 0 0])
  | Raise e =>
      crawl (S (S fuel)) seed_url MAX_PAGES w
      = Some (Raise e, w, [EvMakedirs])
  end.
Proof.
  intros Hmax Hfetch. unfold Crawler.crawl.
  destruct (UrlParse.urlparse seed_url) as [parsed|e]; [|done].
  assert (loop_cond MAX_PAGES (init_state seed_url) = true) as Hc1.
  { unfold loop_cond. cbn [init_state queue visited]. rewrite size_empty.
    apply andb_true_intro. split; [done|]. apply Z.ltb_lt. lia. }
  assert (loop_body (UrlParse.netloc parsed) (init_state seed_url) w
          = (Ok (mkState [] ∅ 0 1), w1,
             EvPop seed_url :: ftr ++ [EvSkipping seed_url])) as Hb.
  { unfold Crawler.loop_body. cbn [init_state queue visited].
    destruct (decide (seed_url ∈ (∅ : gset string))) as [Hin|_];
      [by apply elem_of_empty in Hin|].
    by rewrite Hfetch. }
  cbn [Crawler.crawl_loop]. rewrite Hc1, Hb.
  assert (loop_cond MAX_PAGES (mkState [] ∅ 0 1) = false) as -> by done.
  cbn [visited duplicate_urls]. rewrite size_empty, elements_empty.
  rewrite app_nil_r. do 3 f_equal.
  by rewrite <- app_comm_cons, <- app_assoc.
Qed.

End CrawlBooks.

Section CrawlDomain.

Context {World : Type}.
Variable requests_get : string → Z → World → get_outcome * World.
Variable find_all_href : string → list string.
Variable urljoin : string → string → result string.

Abbreviation fetch_with_retry := (fetch_with_retry requests_get).
Abbreviation crawl_loop := (crawl_loop requests_get find_all_href urljoin).
Abbreviation crawl := (crawl requests_get find_all_href urljoin).

(** X19: every URL a crawl requests has the network location of the
    seed, and every page it has visited when it returns is one it
    requested. *)
Theorem crawl_stays_on_seed_domain fuel seed_url MAX_PAGES w r w' tr parsed :
  UrlParse.urlparse seed_url = Ok parsed →
  crawl fuel seed_url MAX_PAGES w = Some (r, w', tr) →
  (∀ u, u ∈ gets tr →
     ∃ p, UrlParse.urlparse u = Ok p
          ∧ UrlParse.netloc p = UrlParse.netloc parsed)
  ∧ ∀ st, r = Ok st → ∀ u, u ∈ visited st → u ∈ gets tr.
Proof.
  intros Hparse
    [(e & He & _)|(parsed' & ltr & Hp & Hloop & ->)]%crawl_trace;
    [congruence|].
  assert (parsed' = parsed) as -> by congruence.
  destruct (crawl_trace_readings ltr r) as (-> & _).
  pose proof (crawl_loop_queue_events _ _ _ _ _ _ _ _ _ _ _ Hloop)
    as (Helig & Hprefix & _).
  apply crawl_loop_requests in Hloop as [Hgets Hvis]. split.
  - intros u [Hu _]%Hgets.
    destruct Hprefix as [k Hk]. cbn [init_state queue] in Hk.
    assert (u ∈ [seed_url] ++ appends ltr) as Hin
      by (rewrite Hk; apply elem_of_app; by left).
    apply elem_of_app in Hin as [->%list_elem_of_singleton|Hin];
      [by exists parsed|].
    apply (proj1 (Forall_forall _ _) Helig) in Hin as [_ Hin]. exact Hin.
  - intros st Hr u Hu. destruct (Hvis st Hr) as [_ Hfrom].
    destruct (Hfrom u Hu) as [Hin|Hin]; [|done].
    cbn [init_state visited] in Hin. by apply elem_of_empty in Hin.
Qed.

(** X20: started in any state, the loop never requests a URL that the
    state has as visited, and it only adds to the visited set. *)
Theorem visited_never_requested_again
    fuel seed_domain MAX_PAGES st0 w0 r w' tr :
  crawl_loop fuel seed_domain MAX_PAGES st0 w0 = Some (r, w', tr) →
  (∀ u, u ∈ visited st0 → u ∉ gets tr)
  ∧ ∀ st, r = Ok st → visited st0 ⊆ visited st.
Proof.
  intros [Hgets Hvis]%crawl_loop_requests. split.
  - intros u Hu Hin. by destruct (Hgets u Hin).
  - intros st Hr. by destruct (Hvis st Hr).
Qed.

End CrawlDomain.

Lemma omap_prefix {A B} (f : A → option B) (l1 l2 : list A) :
  l1 `prefix_of` l2 → omap f l1 `prefix_of` omap f l2.
Proof. intros [k ->]. rewrite omap_app. by apply prefix_app_r. Qed.

Section CrawlLimits.

Context {World : Type}.
Variable requests_get : string → Z → World → get_outcome * World.
Variable find_all_href : string → list string.
Variable urljoin : string → string → result string.

Abbreviation fetch_with_retry := (fetch_with_retry requests_get).
Abbreviation loop_body := (loop_body requests_get find_all_href urljoin).
Abbreviation crawl_loop := (crawl_loop requests_get find_all_href urljoin).
Abbreviation crawl := (crawl requests_get find_all_href urljoin).
Abbreviation run := (run requests_get find_all_href urljoin).

(** A run is empty or starts with an iteration. *)
Lemma run_front seed_domain MAX_PAGES st0 w0 tr st w :
  run seed_domain MAX_PAGES st0 w0 tr st w →
  (tr = [] ∧ st = st0 ∧ w = w0)
  ∨ ∃ st1 w1 tr1 tr2,
      loop_cond MAX_PAGES st0 = true
      ∧ loop_body seed_domain st0 w0 = (Ok st1, w1, tr1)
      ∧ run seed_domain MAX_PAGES st1 w1 tr2 st w
      ∧ tr = tr1 ++ tr2.
Proof.
  induction 1 as [|tr st w st' w' tr' Hrun IH Hcond Hbody]; [by left|].
  right. destruct IH as [(-> & -> & ->)|(st1 & w1 & tr1 & tr2 & Hc & Hb & Hr & ->)].
  - exists st', w', tr', []. split; [done|]. split; [done|].
    split; [apply run_start|]. by rewrite app_nil_r.
  - exists st1, w1, tr1, (tr2 ++ tr'). split; [done|]. split; [done|].
    split; [by eapply run_iter|]. by rewrite app_assoc.
Qed.

Lemma loop_cond_mono MAX_PAGES MAX_PAGES' st :
  MAX_PAGES ≤ MAX_PAGES' →
  loop_cond MAX_PAGES st = true → loop_cond MAX_PAGES' st = true.
Proof.
  unfold loop_cond. intros Hle [Hq Hlt]%andb_prop.
  rewrite Hq. simpl. apply Z.ltb_lt. apply Z.ltb_lt in Hlt. lia.
Qed.

(** What the loop does under a limit, it does first under any larger
    limit. *)
Lemma crawl_loop_extends_run seed_domain MAX_PAGES MAX_PAGES' fuel :
  MAX_PAGES ≤ MAX_PAGES' →
  ∀ st0 w0 r w' tr' tr st w,
  crawl_loop fuel seed_domain MAX_PAGES' st0 w0 = Some (r, w', tr') →
  run seed_domain MAX_PAGES st0 w0 tr st w →
  tr `prefix_of` tr' ∧ ∀ st', r = Ok st' → visited st ⊆ visited st'.
Proof.
  intros Hle. induction fuel as [|fuel IH];
    intros st0 w0 r w' tr' tr st w Hloop Hrun; [done|].
  apply run_front in Hrun
    as [(-> & -> & ->)|(st1 & w1 & tr1 & tr2 & Hc & Hb & Hrun & ->)].
  - split; [apply prefix_nil|].
    apply crawl_loop_requests in Hloop as [_ Hvis].
    intros st' Hr. by destruct (Hvis st' Hr).
  - cbn [Crawler.crawl_loop] in Hloop.
    rewrite (loop_cond_mono _ _ _ Hle Hc), Hb in Hloop.
    destruct (crawl_loop fuel seed_domain MAX_PAGES' st1 w1)
      as [[[r2 w2] tr2']|] eqn:Hrest; [|done].
    injection Hloop as <- <- <-.
    destruct (IH _ _ _ _ _ _ _ _ Hrest Hrun) as [Hpre Hvis].
    split; [by apply prefix_app|done].
Qed.

(** X21: the seed is not passed through the validator: whenever its
    text parses and [MAX_PAGES] is positive, a crawl starts by taking
    the seed from the queue and requesting it. *)
Theorem seed_requested_unvalidated fuel seed_url MAX_PAGES w r w' tr parsed :
  UrlParse.urlparse seed_url = Ok parsed →
  0 < MAX_PAGES →
  crawl fuel seed_url MAX_PAGES w = Some (r, w', tr) →
  ∃ tr', tr = EvMakedirs :: EvPop seed_url :: EvGet seed_url 8 :: tr'.
Proof.
  intros Hparse Hmax Hcrawl.
  apply crawl_trace in Hcrawl
    as [(e & He & _)|(parsed' & ltr & _ & Hloop & ->)]; [congruence|].
  assert (∃ ltr', ltr = EvPop seed_url :: EvGet seed_url 8 :: ltr')
    as [ltr' ->]; [|by eexists].
  destruct fuel as [|fuel]; [done|]. cbn [Crawler.crawl_loop] in Hloop.
  assert (loop_cond MAX_PAGES (init_state seed_url) = true) as Hc.
  { unfold loop_cond. cbn [init_state queue visited]. rewrite size_empty.
    apply andb_true_intro. split; [done|]. apply Z.ltb_lt. lia. }
  rewrite Hc in Hloop.
  assert (∃ r1 w1 tr1,
    loop_body (UrlParse.netloc parsed') (init_state seed_url) w
    = (r1, w1, EvPop seed_url :: EvGet seed_url 8 :: tr1))
    as (r1 & w1 & tr1 & Hb).
  { unfold Crawler.loop_body. cbn [init_state queue visited].
    destruct (decide (seed_url ∈ (∅ : gset string))) as [Hin|_];
      [by apply elem_of_empty in Hin|].
    destruct (fetch_with_retry_first_get requests_get seed_url w)
      as [ftr Hftr].
    destruct (fetch_with_retry seed_url 3 8 w) as [[response w1] ftr'].
    simpl in Hftr. subst ftr'.
    destruct response as [resp|]; [|by eexists _, _, _].
    destruct (response_ok resp); [|by eexists _, _, _].
    destruct (link_loop urljoin (UrlParse.netloc parsed') seed_url
                (find_all_href (text resp))) as [added [e|]];
      by eexists _, _, _. }
  rewrite Hb in Hloop. destruct r1 as [st1|e].
  - destruct (crawl_loop fuel _ _ st1 w1) as [[[r2 w2] tr2]|]; [|done].
    injection Hloop as <- <- <-. by eexists.
  - injection Hloop as <- <- <-. by eexists.
Qed.

(** X22: raising [MAX_PAGES] only lets a crawl go on: what a crawl
    dequeues, requests, saves and appends under a limit is the start of
    what it does under any larger limit, and every page visited under
    the smaller limit is visited under the larger one. *)
Theorem larger_limit_extends_crawl
    fuel fuel' seed_url MAX_PAGES MAX_PAGES' w st w1 tr r' w1' tr' :
  MAX_PAGES ≤ MAX_PAGES' →
  crawl fuel seed_url MAX_PAGES w = Some (Ok st, w1, tr) →
  crawl fuel' seed_url MAX_PAGES' w = Some (r', w1', tr') →
  pops tr `prefix_of` pops tr'
  ∧ gets tr `prefix_of` gets tr'
  ∧ saves tr `prefix_of` saves tr'
  ∧ appends tr `prefix_of` appends tr'
  ∧ ∀ st', r' = Ok st' → visited st ⊆ visited st'.
Proof.
  intros Hle
    [(e & _ & [=] & _)|(parsed & ltr & Hp & Hloop & ->)]%crawl_trace
    [(e' & He & _)|(parsed' & ltr' & Hp' & Hloop' & ->)]%crawl_trace;
    [congruence|].
  assert (parsed' = parsed) as -> by congruence.
  apply crawl_loop_run in Hloop as [Hrun _].
  destruct (crawl_loop_extends_run _ _ _ _ Hle _ _ _ _ _ _ _ _ Hloop' Hrun)
    as [Hpre Hvis].
  destruct (crawl_trace_readings ltr (Ok st)) as (-> & -> & _ & _ & -> & _).
  destruct (crawl_trace_readings ltr' r') as (-> & -> & _ & _ & -> & _).
  assert (appends (EvMakedirs :: ltr
                     ++ [EvWriteVisited (elements (visited st));
                         EvSummary (size (visited st)) (size (visited st))
                           (duplicate_urls st)]) = appends ltr) as ->.
  { change (EvMakedirs :: ltr ++ ?l) with ([EvMakedirs] ++ ltr ++ l).
    rewrite !appends_app. simpl. by rewrite app_nil_r. }
  assert (∀ l, appends l = [] →
            appends (EvMakedirs :: ltr' ++ l) = appends ltr') as Happ.
  { intros l Hl.
    change (EvMakedirs :: ltr' ++ l) with ([EvMakedirs] ++ ltr' ++ l).
    rewrite !appends_app, Hl. simpl. by rewrite app_nil_r. }
  rewrite Happ by (by destruct r').
  repeat split; try (by apply omap_prefix). exact Hvis.
Qed.

End CrawlLimits.

(** ** The crawler on the further small networks *)

Lemma crawl_mixed_site :
  crawl (static_get mixed_site) links_of_text join_absolute 10
    "http://site.test/" 10 ()
  = Some
      (Ok (mkState [] ({["http://site.test/a"]} ∪ {["http://site.test/"]})
             3 3),
       (),
       [EvMakedirs;
        EvPop "http://site.test/"; EvGet "http://site.test/" 8;
        EvSave 1
          "http://site.test/a http://site.test/x http://site.test/a http://site.test/";
        EvAppend "http://site.test/a"; EvAppend "http://site.test/x";
        EvAppend "http://site.test/a"; EvAppend "http://site.test/";
        EvSleep (1 # 2);
        EvPop "http://site.test/a"; EvGet "http://site.test/a" 8;
        EvSave 2 "http://site.test/ http://other.test/";
        EvAppend "http://site.test/"; EvSleep (1 # 2);
        EvPop "http://site.test/x";
        EvGet "http://site.test/x" 8; EvAttemptFailed 1 "http://site.test/x";
        EvSleep 1;
        EvGet "http://site.test/x" 8; EvAttemptFailed 2 "http://site.test/x";
        EvSleep 1;
        EvGet "http://site.test/x" 8; EvAttemptFailed 3 "http://site.test/x";
        EvSkipping "http://site.test/x";
        EvPop "http://site.test/a"; EvPop "http://site.test/";
        EvPop "http://site.test/";
        EvWriteVisited ["http://site.test/a"; "http://site.test/"];
        EvSummary 2 2 3]).
Proof. vm_compute. reflexivity. Qed.

Lemma crawl_bracket_link_site :
  crawl (static_get bracket_link_site) links_of_text join_parsed 10
    "http://site.test/" 10 ()
  = Some
      (Raise ValueError, (),
       [EvMakedirs;
        EvPop "http://site.test/"; EvGet "http://site.test/" 8;
        EvSave 1 "http://site.test/a http://[ http://site.test/b";
        EvAppend "http://site.test/a"]).
Proof. vm_compute. reflexivity. Qed.

Lemma crawl_loop_mixed_site_resumed :
  crawl_loop (static_get mixed_site) links_of_text join_absolute 10
    "site.test" 5
    (mkState ["http://site.test/"; "http://site.test/a"]
       {["http://site.test/"]} 0 2) ()
  = Some
      (Ok (mkState [] ({["http://site.test/a"]} ∪ {["http://site.test/"]})
             2 3),
       (),
       [EvPop "http://site.test/";
        EvPop "http://site.test/a"; EvGet "http://site.test/a" 8;
        EvSave 2 "http://site.test/ http://other.test/";
        EvAppend "http://site.test/"; EvSleep (1 # 2);
        EvPop "http://site.test/"]).
Proof. vm_compute. reflexivity. Qed.

Lemma saved_pages_numbered_witness :
  ∃ st tr,
    crawl (static_get mixed_site) links_of_text join_absolute 10
      "http://site.test/" 10 () = Some (Ok st, (), tr)
    ∧ saves tr = [1; 2]
    ∧ saves tr = seqZ 1 (Z.of_nat (length (saves tr)))
    ∧ length (saves tr) = size (visited st)
    ∧ page_id st = 1 + Z.of_nat (size (visited st)).
Proof.
  eexists _, _. split; [exact crawl_mixed_site|]. split; [reflexivity|].
  destruct (saved_pages_numbered _ _ _ _ _ _ _ _ _ _ crawl_mixed_site)
    as [Hseq Hend].
  split; [exact Hseq|]. exact (Hend _ eq_refl).
Defined.

Lemma dequeue_accounting_witness :
  ∃ st tr,
    crawl (static_get mixed_site) links_of_text join_absolute 10
      "http://site.test/" 10 () = Some (Ok st, (), tr)
    ∧ length (pops tr) = 6%nat ∧ size (visited st) = 2%nat
    ∧ duplicate_urls st = 3 ∧ length (skips tr) = 1%nat
    ∧ 0 ≤ duplicate_urls st
    ∧ Z.of_nat (length (pops tr))
      = Z.of_nat (size (visited st)) + duplicate_urls st
        + Z.of_nat (length (skips tr)).
Proof.
  eexists _, _. split; [exact crawl_mixed_site|].
  do 4 (split; [vm_compute; reflexivity|]).
  exact (dequeue_accounting _ _ _ _ _ _ _ _ _ _ crawl_mixed_site).
Defined.


Lemma crawl_stop_condition_witness :
  ∃ st tr,
    crawl (static_get five_pages) links_of_text join_absolute 10
      "http://site.test/" 2 () = Some (Ok st, (), tr)
    ∧ queue st
      = ["http://site.test/b"; "http://site.test/c"; "http://site.test/"]
    ∧ (queue st = [] ∨ Z.of_nat (size (visited st)) = Z.max 0 2).
Proof.
  eexists _, _. split; [exact crawl_five_pages|]. split; [reflexivity|].
  exact (crawl_stop_condition _ _ _ _ _ _ _ _ _ _ crawl_five_pages).
Defined.

Lemma crawl_aborts_on_exception_witness :
  ∃ tr,
    crawl (static_get bracket_link_site) links_of_text join_parsed 10
      "http://site.test/" 10 () = Some (Raise ValueError, (), tr)
    ∧ reports tr = []
    ∧ ((UrlParse.urlparse "http://site.test/" = Raise ValueError
        ∧ tr = [EvMakedirs])
       ∨ ∃ tr0 id content added,
           tr = tr0 ++ EvSave id content :: (EvAppend <$> added)).
Proof.
  eexists. split; [exact crawl_bracket_link_site|].
  exact (crawl_aborts_on_exception _ _ _ _ _ _ _ _ _ _
           crawl_bracket_link_site).
Defined.

Lemma unreachable_seed_witness :
  crawl (static_get broken_link_site) links_of_text join_absolute 2
    "http://site.test/x" 5 ()
  = Some (Ok (mkState [] ∅ 0 1), (),
          EvMakedirs :: EvPop "http://site.test/x"
            :: [EvGet "http://site.test/x" 8;
                EvAttemptFailed 1 "http://site.test/x"; EvSleep 1;
                EvGet "http://site.test/x" 8;
                EvAttemptFailed 2 "http://site.test/x"; EvSleep 1;
                EvGet "http://site.test/x" 8;
                EvAttemptFailed 3 "http://site.test/x"]
            ++ [EvSkipping "http://site.test/x"; EvWriteVisited [];
                EvSummary 0 0 0])
  ∧ crawl (static_get broken_link_site) links_of_text join_absolute 2
      "http://[" 5 ()
    = Some (Raise ValueError, (), [EvMakedirs]).
Proof.
  split.
  - exact (unreachable_seed (static_get broken_link_site) links_of_text
             join_absolute 0 "http://site.test/x" 5 () ()
             [EvGet "http://site.test/x" 8;
              EvAttemptFailed 1 "http://site.test/x"; EvSleep 1;
              EvGet "http://site.test/x" 8;
              EvAttemptFailed 2 "http://site.test/x"; EvSleep 1;
              EvGet "http://site.test/x" 8;
              EvAttemptFailed 3 "http://site.test/x"]
             ltac:(lia) eq_refl).
  - exact (unreachable_seed (static_get broken_link_site) links_of_text
             join_absolute 0 "http://[" 5 () ()
             [EvGet "http://[" 8; EvAttemptFailed 1 "http://["; EvSleep 1;
              EvGet "http://[" 8; EvAttemptFailed 2 "http://["; EvSleep 1;
              EvGet "http://[" 8; EvAttemptFailed 3 "http://["]
             ltac:(lia) eq_refl).
Defined.

Lemma crawl_stays_on_seed_domain_witness :
  ∃ st tr,
    crawl (static_get mixed_site) links_of_text join_absolute 10
      "http://site.test/" 10 () = Some (Ok st, (), tr)
    ∧ gets tr
      = ["http://site.test/"; "http://site.test/a"; "http://site.test/x";
         "http://site.test/x"; "http://site.test/x"]
    ∧ (∀ u, u ∈ gets tr →
         ∃ p, UrlParse.urlparse u = Ok p ∧ UrlParse.netloc p = "site.test")
    ∧ ∀ u, u ∈ visited st → u ∈ gets tr.
Proof.
  eexists _, _. split; [exact crawl_mixed_site|]. split; [reflexivity|].
  destruct (crawl_stays_on_seed_domain (static_get mixed_site) links_of_text
              join_absolute 10 "http://site.test/" 10 () _ _ _
              (UrlParse.mkParse "http" "site.test") eq_refl
              crawl_mixed_site) as [Hgets Hvis].
  split; [exact Hgets|]. exact (Hvis _ eq_refl).
Defined.

Lemma visited_never_requested_again_witness :
  ∃ st tr,
    crawl_loop (static_get mixed_site) links_of_text join_absolute 10
      "site.test" 5
      (mkState ["http://site.test/"; "http://site.test/a"]
         {["http://site.test/"]} 0 2) () = Some (Ok st, (), tr)
    ∧ gets tr = ["http://site.test/a"]
    ∧ ("http://site.test/" ∉ gets tr)
    ∧ ({["http://site.test/"]} : gset string) ⊆ visited st.
Proof.
  eexists _, _. split; [exact crawl_loop_mixed_site_resumed|].
  split; [reflexivity|].
  destruct (visited_never_requested_again _ _ _ _ _ _ _ _ _ _ _
              crawl_loop_mixed_site_resumed) as [Hnever Hgrow].
  split; [|exact (Hgrow _ eq_refl)].
  apply Hnever. cbn [visited]. by apply elem_of_singleton_2.
Defined.

Lemma seed_requested_unvalidated_witness :
  is_valid_url "ftp://site.test/" = Ok false
  ∧ ∃ r tr',
      crawl (static_get five_pages) links_of_text join_absolute 10
        "ftp://site.test/" 2 ()
      = Some (r, (),
              EvMakedirs :: EvPop "ftp://site.test/"
                :: EvGet "ftp://site.test/" 8 :: tr').
Proof.
  split; [reflexivity|].
  destruct (crawl (static_get five_pages) links_of_text join_absolute 10
              "ftp://site.test/" 2 ()) as [[[r []] tr]|] eqn:Hrun;
    [|by vm_compute in Hrun].
  destruct (seed_requested_unvalidated (static_get five_pages) links_of_text
              join_absolute 10 "ftp://site.test/" 2 () r () tr
              (UrlParse.mkParse "ftp" "site.test") eq_refl ltac:(lia) Hrun)
    as [tr' ->].
  by exists r, tr'.
Defined.

Lemma larger_limit_extends_crawl_witness :
  ∃ st tr st' tr',
    crawl (static_get five_pages) links_of_text join_absolute 10
      "http://site.test/" 2 () = Some (Ok st, (), tr)
    ∧ crawl (static_get five_pages) links_of_text join_absolute 10
        "http://site.test/" 3 () = Some (Ok st', (), tr')
    ∧ pops tr = ["http://site.test/"; "http://site.test/a"]
    ∧ pops tr'
      = ["http://site.test/"; "http://site.test/a"; "http://site.test/b"]
    ∧ pops tr `prefix_of` pops tr'
    ∧ gets tr `prefix_of` gets tr'
    ∧ saves tr `prefix_of` saves tr'
    ∧ appends tr `prefix_of` appends tr'
    ∧ visited st ⊆ visited st'.
Proof.
  assert (∃ st' tr',
    crawl (static_get five_pages) links_of_text join_absolute 10
      "http://site.test/" 3 () = Some (Ok st', (), tr')
    ∧ pops tr'
      = ["http://site.test/"; "http://site.test/a"; "http://site.test/b"])
    as (st' & tr' & Hrun' & Hpops').
  { eexists _, _. split; vm_compute; reflexivity. }
  eexists _, _, st', tr'. split; [exact crawl_five_pages|].
  split; [exact Hrun'|]. split; [reflexivity|]. split; [exact Hpops'|].
  destruct (larger_limit_extends_crawl (static_get five_pages) links_of_text
              join_absolute 10 10 "http://site.test/" 2 3 () _ _ _ _ _ _
              ltac:(lia) crawl_five_pages Hrun')
    as (H1 & H2 & H3 & H4 & H5).
  split; [exact H1|]. split; [exact H2|]. split; [exact H3|].
  split; [exact H4|]. exact (H5 _ eq_refl).
Defined.
